(** * wasm-metadce: the graph loader of [src/tools/wasm-metadce.cpp]

    A shallow embedding of the meta-DCE graph ([DCENode], [MetaDCEGraph])
    and of the loop of [main] that fills it from the parsed JSON graph
    description, followed by the reachability engine, which the tool's
    source does not contain and which is modelled from the specification.

    The first part holds the definitions, component by component; the
    second part ([LoaderFacts], [EngineFacts], [PipelineFacts],
    [LoopFacts]) holds what is proved of them. *)

From stdpp Require Import base option list gmap sets strings.

Set Default Proof Using "Type".
Set Warnings "-register-all,-clear-no-such-hyp".

(** ** Names

    [wasm::Name] wraps [cashew::IString], an interned string. *)

Abbreviation IString := string (only parsing).
Abbreviation Name := string (only parsing).

(** ** Fatal errors

    [Fatal() << msg] prints [msg] and exits the process.  A computation
    that may call it returns either its value or the message. *)

Module Fatal.

Inductive t : Type :=
| MustBeArray
| NodeMustBeObject
| NodeMustHaveName
| ReachesMustBeArray
| ReachesItemsMustBeStrings
| RootMustBeTrue
| ExportMustBeString
| ImportMustBeTwoStrings.

#[global] Instance eq_dec : EqDecision t.
Proof. solve_decision. Defined.

Definition message (e : t) : string :=
  match e with
  | MustBeArray =>
      "input graph must be a JSON array of nodes. see --help for the form"
  | NodeMustBeObject =>
      "nodes in input graph must be JSON objects. see --help for the form"
  | NodeMustHaveName =>
      "nodes in input graph must have a name. see --help for the form"
  | ReachesMustBeArray =>
      "node.reaches must be an array. see --help for the form"
  | ReachesItemsMustBeStrings =>
      "node.reaches items must be strings. see --help for the form"
  | RootMustBeTrue =>
      "node.root, if it exists, must be true. see --help for the form"
  | ExportMustBeString =>
      "node.export, if it exists, must be a string. see --help for the form"
  | ImportMustBeTwoStrings =>
      "node.import, if it exists, must be an array of two strings. see --help for the form"
  end.

End Fatal.

(** What ends a run other than a [Fatal()] of [main] itself: an assertion
    of cashew, whose accessors assert the tag of the value they read and
    whose arrays assert the bounds of an index, or the lookup of an import
    that does not resolve. *)
Inductive failure : Type :=
| AssertionFailed
| UnresolvedImport.

#[global] Instance failure_eq_dec : EqDecision failure.
Proof. solve_decision. Defined.

Inductive result (A : Type) : Type :=
| Ok (a : A)
| Fatal (e : Fatal.t)
| Failed (f : failure).
Arguments Ok {A} a.
Arguments Fatal {A} e.
Arguments Failed {A} f.

#[global] Instance result_eq_dec {A} `{EqDecision A} : EqDecision (result A).
Proof. solve_decision. Defined.

Definition bind {A B} (r : result A) (k : A -> result B) : result B :=
  match r with
  | Ok a => k a
  | Fatal e => Fatal e
  | Failed f => Failed f
  end.

(** [fatal_if c e] is [if (c) { Fatal() << e; }]. *)
Definition fatal_if (c : bool) (e : Fatal.t) : result unit :=
  if c then Fatal e else Ok tt.

(** [assert_that c] is [assert(c)]. *)
Definition assert_that (c : bool) : result unit :=
  if c then Ok tt else Failed AssertionFailed.

Declare Scope result_scope.
Delimit Scope result_scope with result.
Notation "x <- r ;; k" := (bind r (fun x => k))
  (at level 100, r at next level, right associativity) : result_scope.
Notation "r ;;; k" := (bind r (fun _ => k))
  (at level 100, right associativity) : result_scope.

Definition is_ok {A} (r : result A) : bool :=
  match r with Ok _ => true | _ => false end.

(** What the call of a function declared outside the tool's source does:
    it returns a value, or it ends the run.  None of the messages of
    [main] is raised by such a call. *)
Inductive returned (A : Type) : Type :=
| Returns (a : A)
| Aborts (f : failure).
Arguments Returns {A} a.
Arguments Aborts {A} f.

Definition call {A} (r : returned A) : result A :=
  match r with
  | Returns a => Ok a
  | Aborts f => Failed f
  end.

(** ** Parsed JSON

    [cashew::Value] as [json.parse] delivers it: a tagged union of null,
    string, number, array, boolean and object, an object being a hash map
    from [IString] keys to values.  The loader never reads a number, so
    numbers carry no payload here. *)

Module Cashew.

Inductive Value : Type :=
| Null
| String (str : IString)
| Number
| Array (arr : list Value)
| Bool (boolean : bool)
| Object (obj : gmap IString Value).

Definition isString (v : Value) : bool :=
  match v with String _ => true | _ => false end.
Definition isArray (v : Value) : bool :=
  match v with Array _ => true | _ => false end.
Definition isBool (v : Value) : bool :=
  match v with Bool _ => true | _ => false end.
Definition isObject (v : Value) : bool :=
  match v with Object _ => true | _ => false end.

(** [getBool], [getIString], [size], [operator[]] and [has] assert the
    matching tag in cashew.  The functions below are the accessors on
    their domain; the loader puts the test of the tag, [fatal_if] or
    [assert_that], before every call, so that what they return off their
    domain is never used. *)
Definition getBool (v : Value) : bool :=
  match v with Bool b => b | _ => false end.
Definition getIString (v : Value) : IString :=
  match v with String s => s | _ => EmptyString end.
Definition items (v : Value) : list Value :=
  match v with Array l => l | _ => [] end.
Definition size (v : Value) : nat := length (items v).
Definition index (v : Value) (i : nat) : Value := nth i (items v) Null.
Definition has (v : Value) (key : IString) : bool :=
  match v with Object o => bool_decide (is_Some (o !! key)) | _ => false end.
Definition get (v : Value) (key : IString) : Value :=
  match v with Object o => default Null (o !! key) | _ => Null end.

(** [Ref::operator==(const IString&)]: a string with these contents. *)
Definition eqIString (v : Value) (s : IString) : bool :=
  match v with String s' => bool_decide (s' = s) | _ => false end.

(** The one-argument overload [isArray(IString)] of cashew,
    [isArray()] and element 0 equal to [what]: false of what is not an array,
    otherwise whether the first element is the given string; on the empty
    array the read of element 0 is out of bounds.  It is declared in
    [emscripten-optimizer/simple_ast.h], outside the tool's source, so the
    loader below takes its array test as a parameter; this is the instance
    used on concrete inputs. *)
Definition isArrayOf (v : Value) (what : IString) : returned bool :=
  match v with
  | Array [] => Aborts AssertionFailed
  | Array (x :: _) => Returns (eqIString x what)
  | _ => Returns false
  end.

End Cashew.

(** ** The wasm module

    Modelled from the spec: [wasm::Module] and [ImportUtils::getImport]
    are declared in headers outside this tool ([wasm.h],
    [ir/import-utils.h]).  The module boundary of the specification asks
    for an export table keyed by exported name and an import table in
    which a pair (module, base) resolves to the import's internal name. *)

Module Wasm.

(** Modelled from the spec: an entry of the import table, with the
    internal name the module's code refers to it by. *)
Record Import : Type := {
  import_name : Name;
  import_module : Name;
  import_base : Name
}.

(** Modelled from the spec: an entry of the export table, the exported
    name and the identifier of the exported entity. *)
Record Export : Type := {
  export_name : Name;
  export_value : Name
}.

(** Modelled from the spec: the two tables the tool reads. *)
Record Module : Type := {
  imports : list Import;
  exports : list Export
}.

Definition import_is (module base : Name) (i : Import) : Prop :=
  import_module i = module /\ import_base i = base.

#[global] Instance import_is_dec module base i :
  Decision (import_is module base i).
Proof. unfold import_is. apply _. Defined.

(** Modelled from the spec: the internal name of the import of
    [base] from [module], if the module has one. *)
Definition findImport (wasm : Module) (module base : Name) : option Name :=
  (fun p => import_name (snd p))
    <$> list_find (import_is module base) (imports wasm).

(** Modelled from the spec: the module exports this symbol. *)
Definition hasExport (wasm : Module) (name : Name) : Prop :=
  name ∈ export_name <$> exports wasm.

(** Modelled from the spec: [ImportUtils::getImport], which is not part of
    the tool's source.  The specification (4.3, 7) makes the resolution of
    an import the module does not have a fatal configuration error,
    [UnresolvedImport]; otherwise the lookup returns the internal name. *)
Definition getImport (wasm : Module) (module base : Name) : returned Name :=
  match findImport wasm module base with
  | Some internal => Returns internal
  | None => Aborts UnresolvedImport
  end.

End Wasm.

(** ** The graph *)

(** Generic reachability graph of abstract nodes. *)
Record DCENode : Type := {
  name : Name;
  reaches : list Name  (* the other nodes this one can reach *)
}.

(** A meta DCE graph with wasm integration. *)
Record MetaDCEGraph : Type := {
  nodes : gmap Name DCENode;
  roots : list Name;
  wasm : Wasm.Module;
  importToDCENode : gmap Name Name;  (* import internal name => DCE name *)
  exportToDCENode : gmap Name Name   (* export exported name => DCE name *)
}.

#[global] Instance DCENode_eq_dec : EqDecision DCENode.
Proof. solve_decision. Defined.

(** [MetaDCEGraph graph(wasm)] *)
Definition new_graph (wasm : Wasm.Module) : MetaDCEGraph :=
  {| nodes := ∅; roots := []; wasm := wasm;
     importToDCENode := ∅; exportToDCENode := ∅ |}.

Definition push_reaches (n : Name) (node : DCENode) : DCENode :=
  {| name := name node; reaches := reaches node ++ [n] |}.

Definition push_root (n : Name) (graph : MetaDCEGraph) : MetaDCEGraph :=
  {| nodes := nodes graph; roots := roots graph ++ [n]; wasm := wasm graph;
     importToDCENode := importToDCENode graph;
     exportToDCENode := exportToDCENode graph |}.

Definition set_export (e n : Name) (graph : MetaDCEGraph) : MetaDCEGraph :=
  {| nodes := nodes graph; roots := roots graph; wasm := wasm graph;
     importToDCENode := importToDCENode graph;
     exportToDCENode := <[e := n]> (exportToDCENode graph) |}.

Definition set_import (i n : Name) (graph : MetaDCEGraph) : MetaDCEGraph :=
  {| nodes := nodes graph; roots := roots graph; wasm := wasm graph;
     importToDCENode := <[i := n]> (importToDCENode graph);
     exportToDCENode := exportToDCENode graph |}.

Definition set_node (node : DCENode) (graph : MetaDCEGraph) : MetaDCEGraph :=
  {| nodes := <[name node := node]> (nodes graph); roots := roots graph;
     wasm := wasm graph;
     importToDCENode := importToDCENode graph;
     exportToDCENode := exportToDCENode graph |}.

(** [graph.wasm] is a reference: the same graph about another module. *)
Definition set_wasm (module : Wasm.Module) (graph : MetaDCEGraph)
  : MetaDCEGraph :=
  {| nodes := nodes graph; roots := roots graph; wasm := module;
     importToDCENode := importToDCENode graph;
     exportToDCENode := exportToDCENode graph |}.

(** ** The loader

    The loop of [main] over the JSON array.  The array test applied to
    [reaches] and the import lookup are the two helpers the loop calls
    whose definitions lie outside the tool; the loader takes them as
    parameters, either of which may end the run instead of returning,
    [Cashew.isArrayOf] and [Wasm.getImport] being the instances used on
    concrete inputs. *)

Module Loader.

Import Cashew.

Definition NAME : IString := "name".
Definition REACHES : IString := "reaches".
Definition ROOT : IString := "root".
Definition EXPORT : IString := "export".
Definition IMPORT : IString := "import".

Section WithHelpers.

Variable isArrayNamed : Value -> IString -> returned bool.
Variable getImport : Wasm.Module -> Name -> Name -> returned Name.

Local Open Scope result_scope.

(** The inner loop: [for (j = 0; j < size; j++)] over [reaches]. *)
Fixpoint load_reaches (node : DCENode) (reachesItems : list Value)
  : result DCENode :=
  match reachesItems with
  | [] => Ok node
  | name :: rest =>
      fatal_if (negb (isString name)) Fatal.ReachesItemsMustBeStrings ;;;
      load_reaches (push_reaches (getIString name) node) rest
  end.

(** One iteration of the outer loop, on [ref = json[i]].  The source
    tests [node.has(NAME)] three lines before it declares [node]; the
    object at hand there is [ref].  [DCENode node(ref[NAME])] reads the
    name as a string with no test of the tag before it, and
    [reaches.size()] follows the array test, whatever that test is: both
    reads are under the assertion of their accessor. *)
Definition load_node (graph : MetaDCEGraph) (ref : Value)
  : result MetaDCEGraph :=
  fatal_if (negb (isObject ref)) Fatal.NodeMustBeObject ;;;
  fatal_if (negb (has ref NAME)) Fatal.NodeMustHaveName ;;;
  assert_that (isString (get ref NAME)) ;;;
  let node := {| name := getIString (get ref NAME); reaches := [] |} in
  node <-
    (if has ref REACHES then
       let reaches := get ref REACHES in
       isNamed <- call (isArrayNamed reaches NAME) ;;
       fatal_if (negb isNamed) Fatal.ReachesMustBeArray ;;;
       assert_that (isArray reaches) ;;;
       load_reaches node (items reaches)
     else Ok node) ;;
  graph <-
    (if has ref ROOT then
       let root := get ref ROOT in
       fatal_if (negb (isBool root) || negb (getBool root))
         Fatal.RootMustBeTrue ;;;
       Ok (push_root (name node) graph)
     else Ok graph) ;;
  graph <-
    (if has ref EXPORT then
       let exp := get ref EXPORT in
       fatal_if (negb (isString exp)) Fatal.ExportMustBeString ;;;
       Ok (set_export (getIString exp) (name node) graph)
     else Ok graph) ;;
  graph <-
    (if has ref IMPORT then
       let imp := get ref IMPORT in
       fatal_if (negb (isArray imp) || negb (size imp =? 2)
                 || negb (isString (index imp 0))
                 || negb (isString (index imp 1)))
         Fatal.ImportMustBeTwoStrings ;;;
       internal <-
         call (getImport (wasm graph)
                 (getIString (index imp 0)) (getIString (index imp 1))) ;;
       Ok (set_import internal (name node) graph)
     else Ok graph) ;;
  Ok (set_node node graph).

(** The outer loop: [for (i = 0; i < size; i++)]. *)
Fixpoint load_nodes (graph : MetaDCEGraph) (refs : list Value)
  : result MetaDCEGraph :=
  match refs with
  | [] => Ok graph
  | ref :: rest => graph <- load_node graph ref ;; load_nodes graph rest
  end.

(** [main] from [MetaDCEGraph graph(wasm)] to the end of the loop. *)
Definition load (wasm : Wasm.Module) (json : Value) : result MetaDCEGraph :=
  fatal_if (negb (isArray json)) Fatal.MustBeArray ;;;
  load_nodes (new_graph wasm) (items json).

(** *** What one iteration checks and what it does

    [diagnose] makes the tests of [load_node] in the order the loop makes
    them and stops at the first that fails; [apply_node] is the update of
    the graph by a record that passes them all. *)

Definition node_name (ref : Value) : Name := getIString (get ref NAME).

Definition node_reaches (ref : Value) : list Name :=
  if has ref REACHES then getIString <$> items (get ref REACHES) else [].

Definition node_of (ref : Value) : DCENode :=
  {| name := node_name ref; reaches := node_reaches ref |}.

Definition is_true_bool (root : Value) : bool := isBool root && getBool root.

Definition is_two_strings (imp : Value) : bool :=
  isArray imp && (size imp =? 2)
  && isString (index imp 0) && isString (index imp 1).

(** The lookup the loop makes for the [import] field of a record. *)
Definition import_lookup (wasm : Wasm.Module) (ref : Value) : result Name :=
  call (getImport wasm (getIString (index (get ref IMPORT) 0))
          (getIString (index (get ref IMPORT) 1))).

Definition diagnose (wasm : Wasm.Module) (ref : Value) : result unit :=
  fatal_if (negb (isObject ref)) Fatal.NodeMustBeObject ;;;
  fatal_if (negb (has ref NAME)) Fatal.NodeMustHaveName ;;;
  assert_that (isString (get ref NAME)) ;;;
  (if has ref REACHES then
     isNamed <- call (isArrayNamed (get ref REACHES) NAME) ;;
     fatal_if (negb isNamed) Fatal.ReachesMustBeArray ;;;
     assert_that (isArray (get ref REACHES)) ;;;
     fatal_if (negb (forallb isString (items (get ref REACHES))))
       Fatal.ReachesItemsMustBeStrings
   else Ok tt) ;;;
  (if has ref ROOT
   then fatal_if (negb (is_true_bool (get ref ROOT))) Fatal.RootMustBeTrue
   else Ok tt) ;;;
  (if has ref EXPORT
   then fatal_if (negb (isString (get ref EXPORT))) Fatal.ExportMustBeString
   else Ok tt) ;;;
  (if has ref IMPORT then
     fatal_if (negb (is_two_strings (get ref IMPORT)))
       Fatal.ImportMustBeTwoStrings ;;;
     import_lookup wasm ref ;;; Ok tt
   else Ok tt).

Definition apply_node (graph : MetaDCEGraph) (ref : Value) : MetaDCEGraph :=
  {| nodes := <[node_name ref := node_of ref]> (nodes graph);
     roots := roots graph ++ (if has ref ROOT then [node_name ref] else []);
     wasm := wasm graph;
     importToDCENode :=
       if has ref IMPORT then
         match import_lookup (wasm graph) ref with
         | Ok internal => <[internal := node_name ref]> (importToDCENode graph)
         | _ => importToDCENode graph
         end
       else importToDCENode graph;
     exportToDCENode :=
       if has ref EXPORT
       then <[getIString (get ref EXPORT) := node_name ref]>
              (exportToDCENode graph)
       else exportToDCENode graph |}.

(** The tests of the whole array, in order. *)
Fixpoint diagnose_all (wasm : Wasm.Module) (refs : list Value)
  : result unit :=
  match refs with
  | [] => Ok tt
  | ref :: rest => diagnose wasm ref ;;; diagnose_all wasm rest
  end.

(** The last record of [refs] named [n]. *)
Definition last_named (n : Name) (refs : list Value) : option Value :=
  last (filter (λ ref, node_name ref = n) refs).

(** The last record of [refs] that declares the export [e], and the last
    whose import resolves to the internal name [k]. *)
Definition last_export (e : Name) (refs : list Value) : option Value :=
  last (filter (λ ref, has ref EXPORT = true
                       ∧ getIString (get ref EXPORT) = e) refs).

Definition last_import (wasm : Wasm.Module) (k : Name) (refs : list Value)
  : option Value :=
  last (filter (λ ref, has ref IMPORT = true
                       ∧ import_lookup wasm ref = Ok k) refs).

(** *** Malformed records

    The ways a record can be malformed, one definition per test of the
    loop.  [claimed_malformed] collects the seven ways the specification
    lists; [malformed] adds a [reaches] that is not an array. *)

Definition bad_reaches_items (ref : Value) : bool :=
  has ref REACHES && negb (forallb isString (items (get ref REACHES))).

Definition bad_reaches_array (ref : Value) : bool :=
  has ref REACHES && negb (isArray (get ref REACHES)).

Definition bad_root (ref : Value) : bool :=
  has ref ROOT && negb (is_true_bool (get ref ROOT)).

Definition bad_export (ref : Value) : bool :=
  has ref EXPORT && negb (isString (get ref EXPORT)).

Definition bad_import (ref : Value) : bool :=
  has ref IMPORT && negb (is_two_strings (get ref IMPORT)).

Definition claimed_malformed_node (ref : Value) : bool :=
  negb (isObject ref) || negb (has ref NAME) || bad_reaches_items ref
  || bad_root ref || bad_export ref || bad_import ref.

Definition claimed_malformed (json : Value) : bool :=
  negb (isArray json) || existsb claimed_malformed_node (items json).

Definition malformed_node (ref : Value) : bool :=
  claimed_malformed_node ref || bad_reaches_array ref.

Definition malformed (json : Value) : bool :=
  negb (isArray json) || existsb malformed_node (items json).

(** What the statement about malformed input leaves aside: a name that is
    not a string, a [reaches] on which the array test does not answer
    whether it is an array, and an [import] of two strings whose lookup
    does not return. *)
Definition plainly_typed (wasm : Wasm.Module) (ref : Value) : Prop :=
  (has ref NAME = true → isString (get ref NAME) = true)
  ∧ (has ref REACHES = true →
     isArrayNamed (get ref REACHES) NAME
     = Returns (isArray (get ref REACHES)))
  ∧ (has ref IMPORT = true → is_two_strings (get ref IMPORT) = true →
     is_ok (import_lookup wasm ref) = true).


End WithHelpers.

(** *** Concrete runs

    The loader on small graph descriptions, with cashew's array test and
    the module's import lookup as the helpers. *)

Definition object (fields : list (IString * Value)) : Value :=
  Object (list_to_map fields).

Definition strings (l : list IString) : Value := Array (String <$> l).

Definition empty_module : Wasm.Module :=
  {| Wasm.imports := []; Wasm.exports := [] |}.

Definition run (wasm : Wasm.Module) (json : Value) : result MetaDCEGraph :=
  load isArrayOf Wasm.getImport wasm json.

Definition root_A : Value :=
  object [(NAME, String "A"); (ROOT, Bool true)].

Definition B_reaches_Z : Value :=
  object [(NAME, String "B"); (REACHES, strings ["name"; "Z"])].

Definition a_exports_foo : Value :=
  object [(NAME, String "a"); (EXPORT, String "foo")].


Definition a_reaches_true : Value :=
  object [(NAME, String "a"); (REACHES, Bool true)].

Definition A_reaches_name : Value :=
  object [(NAME, String "A"); (ROOT, Bool true); (REACHES, strings ["name"])].

Definition A_plain : Value := object [(NAME, String "A")].

Definition named_name : Value := object [(NAME, String "name")].

(** A module that exports [foo] and imports nothing. *)
Definition foo_module : Wasm.Module :=
  {| Wasm.imports := [];
     Wasm.exports :=
       [ {| Wasm.export_name := "foo"; Wasm.export_value := "f" |} ] |}.

End Loader.

(** ** The reachability engine

    Modelled from the spec: the tool's source ends with the loader; the
    traversal is not part of it.  The specification (4.4) asks for a
    breadth-first traversal from all roots at once, following [reaches],
    with a visited set so that a node is expanded at most once, ending
    when the frontier is empty; a name that is not in the node store is a
    [DanglingReference], found when the traversal looks it up. *)

Module Engine.

(** Modelled from the spec: what the engine returns, the visited set
    together with the order in which the nodes were expanded, or the fatal
    [DanglingReference]. *)
Inductive outcome : Type :=
| Reached (visited : gset Name) (expanded : list Name)
| DanglingReference.

(** Modelled from the spec: one step takes the first name of the
    frontier; a visited name is dropped, a name with no node ends the run,
    any other name is marked and its targets join the frontier.  [fuel]
    bounds the number of steps; [None] is a run that exceeded it. *)
Fixpoint traverse (fuel : nat) (nodes : gmap Name DCENode)
    (frontier : list Name) (visited : gset Name) (expanded : list Name)
  : option outcome :=
  match fuel with
  | 0 => None
  | S fuel =>
      match frontier with
      | [] => Some (Reached visited expanded)
      | n :: rest =>
          if decide (n ∈ visited) then
            traverse fuel nodes rest visited expanded
          else
            match nodes !! n with
            | None => Some DanglingReference
            | Some node =>
                traverse fuel nodes (rest ++ reaches node)
                  ({[n]} ∪ visited) (expanded ++ [n])
            end
      end
  end.

(** The budget of steps given to [compute]: each root is taken from the
    frontier once, and each node is marked once and puts its targets on
    the frontier once.  [EngineFacts.compute_total] shows that no run
    exceeds it. *)
Definition weight (nodes : gmap Name DCENode) : nat :=
  sum_list_with (λ entry, S (length (reaches entry.2))) (map_to_list nodes).

Definition budget (graph : MetaDCEGraph) : nat :=
  S (length (roots graph) + weight (nodes graph)).

(** Modelled from the spec: [compute(graph)]. *)
Definition compute (graph : MetaDCEGraph) : option outcome :=
  traverse (budget graph) (nodes graph) (roots graph) ∅ [].

Definition reached_set (o : outcome) : option (gset Name) :=
  match o with
  | Reached visited _ => Some visited
  | DanglingReference => None
  end.

(** The names one can arrive at from a root along [reaches]. *)
Inductive reachable (nodes : gmap Name DCENode) (roots : list Name)
  : Name → Prop :=
| reachable_root r : r ∈ roots → reachable nodes roots r
| reachable_step n node m :
    reachable nodes roots n → nodes !! n = Some node → m ∈ reaches node →
    reachable nodes roots m.

(** What holds of the frontier, the visited set and the expansion order
    between two steps. *)
Record invariant (nodes : gmap Name DCENode) (roots : list Name)
    (frontier : list Name) (visited : gset Name) (expanded : list Name)
  : Prop := {
  inv_roots : ∀ r, r ∈ roots → r ∈ visited ∨ r ∈ frontier;
  inv_closed : ∀ n node m,
    n ∈ visited → nodes !! n = Some node → m ∈ reaches node →
    m ∈ visited ∨ m ∈ frontier;
  inv_visited : ∀ n,
    n ∈ visited → reachable nodes roots n ∧ is_Some (nodes !! n);
  inv_frontier : ∀ n, n ∈ frontier → reachable nodes roots n;
  inv_once : NoDup expanded;
  inv_expanded : ∀ n, n ∈ expanded ↔ n ∈ visited
}.

(** Two nodes reaching each other, the first a root. *)
Definition cycle_graph : MetaDCEGraph :=
  {| nodes := <["A" := {| name := "A"; reaches := ["B"] |}]>
              (<["B" := {| name := "B"; reaches := ["A"] |}]> ∅);
     roots := ["A"];
     wasm := {| Wasm.imports := []; Wasm.exports := [] |};
     importToDCENode := ∅;
     exportToDCENode := ∅ |}.

(** The scenario of the specification (8): [e1] is a root and reaches
    [e2], [e2] is bound to the export [myExport], [e3] to [unusedExport],
    and the module exports both. *)
Definition scenario_graph : MetaDCEGraph :=
  {| nodes := <["e1" := {| name := "e1"; reaches := ["e2"] |}]>
              (<["e2" := {| name := "e2"; reaches := [] |}]>
               (<["e3" := {| name := "e3"; reaches := [] |}]> ∅));
     roots := ["e1"];
     wasm := {| Wasm.imports := [];
                Wasm.exports :=
                  [ {| Wasm.export_name := "myExport";
                       Wasm.export_value := "f" |};
                    {| Wasm.export_name := "unusedExport";
                       Wasm.export_value := "g" |} ] |};
     importToDCENode := ∅;
     exportToDCENode :=
       <["myExport" := "e2"]> (<["unusedExport" := "e3"]> ∅) |}.

End Engine.

(** ** More graph descriptions

    Records used to run the loop on concrete inputs beyond those above. *)

Module Samples.

Import Cashew Loader.

(** A record with every field the loop reads. *)
Definition full_record : Value :=
  object [(NAME, String "n"); (REACHES, strings ["name"; "x"]);
          (ROOT, Bool true); (EXPORT, String "e");
          (IMPORT, strings ["m"; "b"])].

(** A record whose [root] is [false] and whose [export] is a number. *)
Definition bad_root_and_export : Value :=
  object [(NAME, String "n"); (ROOT, Bool false); (EXPORT, Number)].

(** A record whose [import] has three strings. *)
Definition three_imports : Value :=
  object [(NAME, String "n"); (IMPORT, strings ["m"; "b"; "c"])].

(** A module importing [b] from [m] under the internal name [m_b]. *)
Definition one_import_module : Wasm.Module :=
  {| Wasm.imports :=
       [ {| Wasm.import_name := "m_b"; Wasm.import_module := "m";
            Wasm.import_base := "b" |} ];
     Wasm.exports := [] |}.

End Samples.

(** * Properties *)

(** ** The loader *)

Module LoaderFacts.

Import Cashew Loader.

Section WithHelpers.

Variable isArrayNamed : Value -> IString -> returned bool.
Variable getImport : Wasm.Module -> Name -> Name -> returned Name.

Local Abbreviation load_node := (Loader.load_node isArrayNamed getImport).
Local Abbreviation load_nodes := (Loader.load_nodes isArrayNamed getImport).
Local Abbreviation load := (Loader.load isArrayNamed getImport).
Local Abbreviation diagnose := (Loader.diagnose isArrayNamed getImport).
Local Abbreviation diagnose_all :=
  (Loader.diagnose_all isArrayNamed getImport).
Local Abbreviation import_lookup := (Loader.import_lookup getImport).
Local Abbreviation apply_node := (Loader.apply_node getImport).
Local Abbreviation last_import := (Loader.last_import getImport).
Local Abbreviation plainly_typed :=
  (Loader.plainly_typed isArrayNamed getImport).

(** *** One iteration *)

Lemma load_reaches_spec node reachesItems :
  load_reaches node reachesItems =
  if forallb isString reachesItems
  then Ok {| name := name node;
             reaches := reaches node ++ (getIString <$> reachesItems) |}
  else Fatal Fatal.ReachesItemsMustBeStrings.
Proof.
  revert node. induction reachesItems as [|v rest IH]; intros node; simpl.
  - rewrite app_nil_r. by destruct node.
  - destruct (isString v); simpl; [|done].
    rewrite IH. simpl. destruct (forallb isString rest); [|done].
    by rewrite <- app_assoc.
Qed.

Lemma load_node_spec graph ref :
  load_node graph ref =
  bind (diagnose (wasm graph) ref) (λ _, Ok (apply_node graph ref)).
Proof.
  unfold Loader.load_node, Loader.diagnose, Loader.apply_node, node_of,
    node_reaches, node_name, Loader.import_lookup, is_true_bool,
    is_two_strings, set_node, set_import, set_export, push_root.
  destruct (isObject ref); simpl; [|done].
  destruct (has ref NAME); simpl; [|done].
  destruct (isString (get ref NAME)); simpl; [|done].
  destruct (has ref REACHES); simpl;
    [ destruct (isArrayNamed _ _) as [[]|]; simpl; [|done..];
      destruct (isArray (get ref REACHES)); simpl; [|done];
      rewrite load_reaches_spec;
      destruct (forallb _ _); simpl; [|done] | ];
    (destruct (has ref ROOT); simpl;
     [ destruct (isBool _); simpl; [|done];
       destruct (getBool _); simpl; [|done] | ]);
    (destruct (has ref EXPORT); simpl;
     [ destruct (isString (get ref EXPORT)); simpl; [|done] | ]);
    (destruct (has ref IMPORT); simpl;
     [ destruct (isArray (get ref IMPORT)); simpl; [|done];
       destruct (size _ =? 2); simpl; [|done];
       destruct (isString (index _ 0)); simpl; [|done];
       destruct (isString (index _ 1)); simpl; [|done];
       destruct (getImport _ _ _); simpl; [|done..] | ]);
    by rewrite ?app_nil_r.
Qed.

Lemma wasm_apply_node graph ref : wasm (apply_node graph ref) = wasm graph.
Proof. done. Qed.

(** *** The whole loop *)

Lemma load_nodes_spec graph refs :
  load_nodes graph refs =
  bind (diagnose_all (wasm graph) refs)
    (λ _, Ok (foldl apply_node graph refs)).
Proof.
  revert graph.
  induction refs as [|ref rest IH]; intros graph; simpl; [done|].
  rewrite load_node_spec.
  destruct (diagnose (wasm graph) ref) as [[]| |]; simpl; [|done..].
  by rewrite IH.
Qed.

Lemma load_spec wasm json :
  load wasm json =
  if isArray json then
    bind (diagnose_all wasm (items json))
      (λ _, Ok (foldl apply_node (new_graph wasm) (items json)))
  else Fatal Fatal.MustBeArray.
Proof.
  unfold Loader.load. destruct (isArray json); simpl; [|done].
  apply load_nodes_spec.
Qed.

Lemma diagnose_all_Ok wasm refs :
  diagnose_all wasm refs = Ok tt ↔
  ∀ ref, ref ∈ refs → diagnose wasm ref = Ok tt.
Proof.
  induction refs as [|ref rest IH]; simpl.
  - split; [|done]. intros _ ref Href. by apply elem_of_nil in Href.
  - destruct (diagnose wasm ref) as [[]| |] eqn:Hd; simpl.
    + rewrite IH. split.
      * intros H r [->|Hr]%elem_of_cons; auto.
      * intros H r Hr. apply H. by apply list_elem_of_further.
    + split; [done|]. intros H.
      specialize (H ref (list_elem_of_here _ _)). congruence.
    + split; [done|]. intros H.
      specialize (H ref (list_elem_of_here _ _)). congruence.
Qed.

Lemma diagnose_all_app wasm refs1 refs2 :
  diagnose_all wasm (refs1 ++ refs2) =
  bind (diagnose_all wasm refs1) (λ _, diagnose_all wasm refs2).
Proof.
  induction refs1 as [|ref refs1 IH]; simpl; [done|].
  destruct (diagnose wasm ref) as [[]| |]; simpl; [apply IH|done..].
Qed.

Lemma load_Ok wasm refs graph :
  load wasm (Array refs) = Ok graph ↔
  diagnose_all wasm refs = Ok tt
  ∧ graph = foldl apply_node (new_graph wasm) refs.
Proof.
  rewrite load_spec. simpl.
  destruct (diagnose_all wasm refs) as [[]| |]; simpl; split.
  - by intros [= <-].
  - by intros [_ ->].
  - done.
  - by intros [? _].
  - done.
  - by intros [? _].
Qed.

Lemma load_ok_diagnose_all wasm refs :
  is_ok (load wasm (Array refs)) = true ↔ diagnose_all wasm refs = Ok tt.
Proof.
  rewrite load_spec. simpl.
  by destruct (diagnose_all wasm refs) as [[]| |].
Qed.

Lemma load_single_ok wasm ref :
  is_ok (load wasm (Array [ref])) = true ↔ diagnose wasm ref = Ok tt.
Proof.
  rewrite load_ok_diagnose_all. simpl.
  by destruct (diagnose wasm ref) as [[]| |].
Qed.

Lemma load_Ok_json wasm json graph :
  load wasm json = Ok graph →
  json = Array (items json)
  ∧ diagnose_all wasm (items json) = Ok tt
  ∧ graph = foldl apply_node (new_graph wasm) (items json).
Proof.
  intros Hload.
  assert (json = Array (items json)) as Hjson.
  { rewrite load_spec in Hload. by destruct json. }
  split; [done|]. rewrite Hjson in Hload. by apply load_Ok in Hload.
Qed.

(** *** The graph after the loop *)

Lemma wasm_foldl graph refs :
  wasm (foldl apply_node graph refs) = wasm graph.
Proof.
  revert graph. induction refs as [|ref rest IH]; intros graph; simpl; [done|].
  by rewrite IH.
Qed.

Lemma roots_foldl graph refs :
  roots (foldl apply_node graph refs) =
  roots graph ++ (node_name <$> filter (λ ref, has ref ROOT = true) refs).
Proof.
  revert graph. induction refs as [|ref rest IH]; intros graph; simpl.
  - by rewrite app_nil_r.
  - rewrite IH. simpl. rewrite filter_cons.
    destruct (decide (has ref ROOT = true)) as [->|Hn].
    + by rewrite <- app_assoc.
    + apply not_true_is_false in Hn. rewrite Hn. by rewrite app_nil_r.
Qed.

Lemma last_named_snoc n refs ref :
  last_named n (refs ++ [ref]) =
  if decide (node_name ref = n) then Some ref else last_named n refs.
Proof.
  unfold last_named. rewrite filter_app, filter_cons, filter_nil.
  destruct (decide (node_name ref = n)).
  - by rewrite last_snoc.
  - by rewrite app_nil_r.
Qed.

Lemma nodes_foldl graph refs n :
  nodes (foldl apply_node graph refs) !! n =
  match last_named n refs with
  | Some ref => Some (node_of ref)
  | None => nodes graph !! n
  end.
Proof.
  induction refs as [|ref refs IH] using rev_ind; [done|].
  rewrite foldl_app, last_named_snoc. simpl.
  destruct (decide (node_name ref = n)) as [<-|Hn].
  - by rewrite lookup_insert_eq.
  - by rewrite lookup_insert_ne.
Qed.

Lemma last_named_is_Some n refs ref :
  ref ∈ refs → node_name ref = n → is_Some (last_named n refs).
Proof.
  intros Hin Hn. unfold last_named. apply last_is_Some.
  intros Hnil.
  assert (ref ∈ filter (λ ref, node_name ref = n) refs) as Hf
    by by apply list_elem_of_filter.
  rewrite Hnil in Hf. by apply elem_of_nil in Hf.
Qed.

Lemma last_named_elem n refs ref :
  last_named n refs = Some ref → ref ∈ refs ∧ node_name ref = n.
Proof.
  unfold last_named. intros H%last_Some_elem_of.
  apply list_elem_of_filter in H as [Hn Hin]. by split.
Qed.

Lemma exports_foldl graph refs e :
  exportToDCENode (foldl apply_node graph refs) !! e =
  match last_export e refs with
  | Some ref => Some (node_name ref)
  | None => exportToDCENode graph !! e
  end.
Proof.
  induction refs as [|ref refs IH] using rev_ind; [done|].
  unfold last_export in *.
  rewrite foldl_app, filter_app, filter_cons, filter_nil. simpl.
  destruct (decide _) as [[Hh <-]|Hn].
  - rewrite last_snoc, Hh. by rewrite lookup_insert_eq.
  - rewrite app_nil_r, <- IH. destruct (has ref EXPORT) eqn:Hh; [|done].
    rewrite lookup_insert_ne; [done|]. intros He. by apply Hn.
Qed.

Lemma imports_foldl graph refs k :
  importToDCENode (foldl apply_node graph refs) !! k =
  match last_import (wasm graph) k refs with
  | Some ref => Some (node_name ref)
  | None => importToDCENode graph !! k
  end.
Proof.
  induction refs as [|ref refs IH] using rev_ind; [done|].
  unfold Loader.last_import in *.
  rewrite foldl_app, filter_app, filter_cons, filter_nil. simpl.
  rewrite wasm_foldl.
  destruct (decide _) as [[Hh Hk]|Hn].
  - rewrite last_snoc, Hh, Hk. by rewrite lookup_insert_eq.
  - rewrite app_nil_r, <- IH. destruct (has ref IMPORT) eqn:Hh; [|done].
    destruct (import_lookup (wasm graph) ref) as [k'| |] eqn:Hk; [|done..].
    rewrite lookup_insert_ne; [done|]. intros ->. by apply Hn.
Qed.

(** *** Records taken alone, and the module *)

Lemma foldl_apply_node_set_wasm module graph refs :
  (∀ ref, ref ∈ refs → has ref IMPORT = true →
     import_lookup module ref = import_lookup (wasm graph) ref) →
  foldl apply_node (set_wasm module graph) refs
  = set_wasm module (foldl apply_node graph refs).
Proof.
  revert graph. induction refs as [|ref refs IH]; intros graph Hsame; simpl;
    [done|].
  rewrite <- IH.
  - f_equal. unfold Loader.apply_node, set_wasm. simpl.
    destruct (has ref IMPORT) eqn:Hhas; [|done].
    by rewrite (Hsame ref (list_elem_of_here _ _) Hhas).
  - intros r Hr Hhas. simpl. apply Hsame; [|done].
    by apply list_elem_of_further.
Qed.

Lemma diagnose_same_lookup module module' ref :
  (has ref IMPORT = true →
   import_lookup module' ref = import_lookup module ref) →
  diagnose module' ref = diagnose module ref.
Proof.
  intros Hsame. unfold Loader.diagnose.
  destruct (has ref IMPORT) eqn:Hhas; [|done]. by rewrite Hsame.
Qed.

Lemma diagnose_all_same_lookup module module' refs :
  (∀ ref, ref ∈ refs → has ref IMPORT = true →
     import_lookup module' ref = import_lookup module ref) →
  diagnose_all module' refs = diagnose_all module refs.
Proof.
  induction refs as [|ref refs IH]; intros Hsame; simpl; [done|].
  rewrite (diagnose_same_lookup module module' ref), IH; [done| |].
  - intros r Hr. apply Hsame. by apply list_elem_of_further.
  - apply Hsame, list_elem_of_here.
Qed.

Lemma diagnose_Ok_export module ref :
  diagnose module ref = Ok tt → has ref EXPORT = true →
  ∃ e, get ref EXPORT = String e.
Proof.
  unfold Loader.diagnose. intros Hd Hhas. rewrite Hhas in Hd.
  destruct (get ref EXPORT) as [|e| | | |] eqn:Hexp; [|by exists e|..];
    exfalso; revert Hd; simpl;
    repeat match goal with
      | |- context [bind ?r _] => destruct r as [[]| |]; simpl; try done
      end.
Qed.

(** *** Malformed input *)

Lemma diagnose_plainly_typed module ref :
  plainly_typed module ref →
  if malformed_node ref
  then ∃ e, diagnose module ref = Fatal e
  else diagnose module ref = Ok tt.
Proof.
  intros (Hname & Harr & Himp).
  unfold Loader.diagnose, malformed_node, claimed_malformed_node,
    bad_reaches_items, bad_reaches_array, bad_root, bad_export, bad_import.
  destruct (isObject ref); simpl; [|by eexists].
  destruct (has ref NAME); simpl; [|by eexists].
  rewrite Hname by done. simpl.
  destruct (has ref REACHES); simpl;
    [ rewrite Harr by done; simpl;
      destruct (isArray (get ref REACHES)); simpl;
      [ destruct (forallb _ _); simpl
      | rewrite !orb_true_r; by eexists ] | ];
    try (by eexists);
    (destruct (has ref ROOT); simpl;
     [ destruct (is_true_bool _); simpl | ]; try (by eexists);
     (destruct (has ref EXPORT); simpl;
      [ destruct (isString (get ref EXPORT)); simpl | ];
      try (by eexists);
      (destruct (has ref IMPORT); simpl;
       [ destruct (is_two_strings _) eqn:Htwo; simpl;
         [ specialize (Himp eq_refl eq_refl);
           destruct (import_lookup module ref); simpl; done
         | by eexists ]
       | done ]))).
Qed.

Lemma diagnose_all_plainly_typed module refs :
  (∀ ref, ref ∈ refs → plainly_typed module ref) →
  if existsb malformed_node refs
  then ∃ e, diagnose_all module refs = Fatal e
  else diagnose_all module refs = Ok tt.
Proof.
  induction refs as [|ref refs IH]; intros Hall; simpl; [done|].
  pose proof (diagnose_plainly_typed module ref
                (Hall ref (list_elem_of_here _ _))) as Hd.
  destruct (malformed_node ref); simpl.
  - destruct Hd as [e ->]. by exists e.
  - rewrite Hd. simpl. apply IH. intros r Hr. apply Hall.
    by apply list_elem_of_further.
Qed.

(** *** Properties of the loader *)

(** C3, as amended.  The loader makes no test of a [reaches] target
    against the loaded nodes: its tests read the record at hand and
    nothing else, so that a description loads exactly when each of its
    records loads on its own; after a successful load every node of the
    store is the node of one of the records, with the strings of its
    [reaches] as written, and the graph refers to the module the load was
    given. *)
Theorem load_tests_each_record_alone module refs :
  (is_ok (load module (Array refs)) = true ↔
   ∀ ref, ref ∈ refs → is_ok (load module (Array [ref])) = true)
  ∧ ∀ graph, load module (Array refs) = Ok graph →
      wasm graph = module
      ∧ ∀ n node, nodes graph !! n = Some node →
          ∃ ref, ref ∈ refs ∧ node_name ref = n ∧ node = node_of ref.
Proof.
  split.
  - rewrite load_ok_diagnose_all, diagnose_all_Ok.
    split; intros H ref Hin; by apply load_single_ok, H.
  - intros graph [_ ->]%load_Ok. split; [by rewrite wasm_foldl|].
    intros n node. rewrite nodes_foldl. simpl. rewrite lookup_empty.
    destruct (last_named n refs) as [ref|] eqn:Hlast; [|done].
    intros [= <-]. apply last_named_elem in Hlast as [Hin Hn].
    by exists ref.
Qed.

(** C4, as amended.  The export table of the module is not consulted:
    against any module on which the import lookups of the description
    give what they give on the first, whatever either module exports, the
    load ends alike and gives the same graph; when it gives a graph,
    each [export] field is a string and each export name is bound to the
    node name of the last record declaring it. *)
Theorem load_ignores_module_exports module module' refs :
  (∀ ref, ref ∈ refs → has ref IMPORT = true →
     import_lookup module' ref = import_lookup module ref) →
  load module' (Array refs)
  = match load module (Array refs) with
    | Ok graph => Ok (set_wasm module' graph)
    | Fatal e => Fatal e
    | Failed f => Failed f
    end
  ∧ ∀ graph, load module (Array refs) = Ok graph →
      (∀ ref, ref ∈ refs → has ref EXPORT = true →
         ∃ e, get ref EXPORT = String e)
      ∧ ∀ e, exportToDCENode graph !! e = node_name <$> last_export e refs.
Proof.
  intros Hsame. split.
  - rewrite !load_spec. simpl.
    rewrite (diagnose_all_same_lookup module module' refs Hsame).
    destruct (diagnose_all module refs) as [[]| |]; simpl; [|done..].
    f_equal. by apply (foldl_apply_node_set_wasm module' (new_graph module)).
  - intros graph [Hd ->]%load_Ok. split.
    + intros ref Hin. apply (diagnose_Ok_export module).
      by apply (proj1 (diagnose_all_Ok module refs) Hd).
    + intros e. rewrite exports_foldl. by destruct (last_export e refs).
Qed.

(** C6, as amended.  On an input in which every name is a string, the
    array test answers of every [reaches] whether it is an array, and
    every [import] of two strings resolves, the load aborts with a fatal
    error exactly when the input is malformed in one of the seven ways of
    the specification or a record has a [reaches] that is not an array;
    otherwise it returns a graph. *)
Theorem load_fatal_iff_malformed module json :
  (∀ ref, ref ∈ items json → plainly_typed module ref) →
  ((∃ e, load module json = Fatal e) ↔ malformed json = true)
  ∧ ((∃ graph, load module json = Ok graph) ↔ malformed json = false).
Proof.
  intros Hall. rewrite load_spec. unfold malformed.
  destruct (isArray json); simpl;
    [|split; split; try done; [by eexists | by intros [? ?]]].
  pose proof (diagnose_all_plainly_typed module (items json) Hall) as Hd.
  destruct (existsb malformed_node (items json)).
  - destruct Hd as [e ->]. simpl.
    split; split; try done; [by eexists | by intros [? ?]].
  - rewrite Hd. simpl.
    split; split; try done; [by intros [? ?] | by eexists].
Qed.

(** C7.  A sequence of records each of which passes the loop's tests on
    its own loads without error, whatever names repeat in it, and in the
    loaded graph every name is bound to the node of the last record
    bearing it. *)
Theorem load_last_write_wins wasm refs :
  (∀ ref, ref ∈ refs → is_ok (load wasm (Array [ref])) = true) →
  ∃ graph, load wasm (Array refs) = Ok graph
    ∧ ∀ n, nodes graph !! n = node_of <$> last_named n refs.
Proof.
  intros Hall. eexists. split.
  - apply load_Ok. split; [|done].
    apply diagnose_all_Ok. intros ref Hin.
    by apply (load_single_ok wasm), Hall.
  - intros n. rewrite nodes_foldl. simpl. rewrite lookup_empty.
    by destruct (last_named n refs).
Qed.

(** C10.  After a successful load the root sequence is the names of the
    records that carry a [root] field, in order, and each of them is the
    name of a node of the store. *)
Theorem load_roots_are_nodes wasm json graph :
  load wasm json = Ok graph →
  roots graph = node_name <$> filter (λ ref, has ref ROOT = true) (items json)
  ∧ ∀ r, r ∈ roots graph → is_Some (nodes graph !! r).
Proof.
  intros (_ & _ & ->)%load_Ok_json.
  assert (roots (foldl apply_node (new_graph wasm) (items json)) =
          node_name <$> filter (λ ref, has ref ROOT = true) (items json))
    as Hroots by by rewrite roots_foldl.
  split; [done|]. intros r. rewrite Hroots.
  intros (ref & -> & [_ Hin]%list_elem_of_filter)%list_elem_of_fmap.
  rewrite nodes_foldl.
  destruct (last_named_is_Some (node_name ref) (items json) ref Hin eq_refl)
    as [ref' ->].
  done.
Qed.

End WithHelpers.

(** *** The import lookup of the module *)

Lemma is_two_strings_shape imp :
  is_two_strings imp = true ↔ ∃ m b, imp = Array [String m; String b].
Proof.
  split; [|by intros (m & b & ->)].
  unfold is_two_strings, size, index.
  destruct imp as [| | |elems| |]; try done. simpl.
  destruct elems as [|x [|y [|z elems]]]; simpl; try done;
    rewrite ?andb_false_r; try done.
  destruct x; try done. destruct y; try done. by eexists _, _.
Qed.








(** *** Concrete runs *)

(** C3, counterexample.  The node [B] reaches [Z], no record is named [Z],
    and the load returns a graph. *)
Lemma dangling_reference_not_detected :
  ∃ graph, run empty_module (Array [root_A; B_reaches_Z]) = Ok graph
    ∧ (∃ node, nodes graph !! "B" = Some node ∧ "Z" ∈ reaches node)
    ∧ nodes graph !! "Z" = None.
Proof.
  eexists. split; [vm_compute; reflexivity|]. split.
  - eexists. split; [vm_compute; reflexivity|]. simpl. set_solver.
  - vm_compute. reflexivity.
Qed.

Lemma load_tests_each_record_alone_witness :
  is_ok (run empty_module (Array [root_A; B_reaches_Z])) = true
  ↔ ∀ ref, ref ∈ [root_A; B_reaches_Z] →
      is_ok (run empty_module (Array [ref])) = true.
Proof.
  exact (proj1 (load_tests_each_record_alone isArrayOf Wasm.getImport
                  empty_module [root_A; B_reaches_Z])).
Defined.

(** C4, counterexample.  The module exports nothing, a record declares the
    export [foo], and the load returns a graph that binds [foo]. *)
Lemma export_not_verified :
  ¬ Wasm.hasExport empty_module "foo"
  ∧ ∃ graph, run empty_module (Array [a_exports_foo]) = Ok graph
      ∧ exportToDCENode graph !! "foo" = Some "a".
Proof.
  split.
  - unfold Wasm.hasExport. simpl. apply not_elem_of_nil.
  - eexists. split; vm_compute; reflexivity.
Qed.

Lemma load_ignores_module_exports_witness :
  run foo_module (Array [a_exports_foo])
  = match run empty_module (Array [a_exports_foo]) with
    | Ok graph => Ok (set_wasm foo_module graph)
    | Fatal e => Fatal e
    | Failed f => Failed f
    end.
Proof.
  apply (load_ignores_module_exports isArrayOf Wasm.getImport
           empty_module foo_module [a_exports_foo]).
  intros ref Hin Hhas. vm_compute. reflexivity.
Defined.


(** C6, counterexample.  A record whose [reaches] is the boolean [true] is
    malformed in none of the seven ways of the specification, and the
    load aborts on it. *)
Lemma reaches_not_array_is_fatal :
  claimed_malformed (Array [a_reaches_true]) = false
  ∧ run empty_module (Array [a_reaches_true])
    = Fatal Fatal.ReachesMustBeArray.
Proof. split; vm_compute; reflexivity. Qed.

Lemma load_fatal_iff_malformed_witness :
  ((∃ e, run empty_module (Array [A_reaches_name; a_reaches_true]) = Fatal e)
   ↔ malformed (Array [A_reaches_name; a_reaches_true]) = true)
  ∧ ((∃ graph,
        run empty_module (Array [A_reaches_name; a_reaches_true]) = Ok graph)
     ↔ malformed (Array [A_reaches_name; a_reaches_true]) = false).
Proof.
  apply (load_fatal_iff_malformed isArrayOf Wasm.getImport empty_module
           (Array [A_reaches_name; a_reaches_true])).
  intros ref Hin. simpl in Hin.
  assert (ref = A_reaches_name ∨ ref = a_reaches_true) as [->| ->].
  { apply elem_of_cons in Hin as [->|Hin]; [by left|].
    apply elem_of_cons in Hin as [->|Hin]; [by right|].
    by apply elem_of_nil in Hin. }
  - split; [|split].
    + intros _. vm_compute. reflexivity.
    + intros _. vm_compute. reflexivity.
    + intros Himp. vm_compute in Himp. discriminate Himp.
  - split; [|split].
    + intros _. vm_compute. reflexivity.
    + intros _. vm_compute. reflexivity.
    + intros Himp. vm_compute in Himp. discriminate Himp.
Defined.

Lemma load_last_write_wins_witness :
  ∃ graph, run empty_module (Array [A_reaches_name; A_plain]) = Ok graph
    ∧ ∀ n, nodes graph !! n
           = node_of <$> last_named n [A_reaches_name; A_plain].
Proof.
  apply (load_last_write_wins isArrayOf Wasm.getImport empty_module
           [A_reaches_name; A_plain]).
  intros ref Hin.
  apply elem_of_cons in Hin as [->|Hin];
    [|apply elem_of_cons in Hin as [->|Hin];
      [|by apply elem_of_nil in Hin]];
    vm_compute; reflexivity.
Defined.

Lemma load_roots_are_nodes_witness :
  roots (foldl (apply_node Wasm.getImport) (new_graph empty_module)
           [A_reaches_name; A_plain])
  = node_name <$> filter (λ ref, has ref ROOT = true)
                    (items (Array [A_reaches_name; A_plain]))
  ∧ ∀ r, r ∈ roots (foldl (apply_node Wasm.getImport)
                       (new_graph empty_module) [A_reaches_name; A_plain]) →
         is_Some (nodes (foldl (apply_node Wasm.getImport)
                           (new_graph empty_module) [A_reaches_name; A_plain])
                  !! r).
Proof.
  apply (load_roots_are_nodes isArrayOf Wasm.getImport empty_module
           (Array [A_reaches_name; A_plain])).
  vm_compute. reflexivity.
Defined.

End LoaderFacts.

(** ** The engine *)

Module EngineFacts.

Import Engine.

Lemma weight_delete nodes n node :
  nodes !! n = Some node →
  weight nodes = S (length (reaches node)) + weight (delete n nodes).
Proof.
  intros Hn. unfold weight.
  by rewrite <- (map_to_list_delete nodes n node Hn).
Qed.

Lemma traverse_enough_fuel nodes fuel frontier visited expanded rest :
  (∀ k, k ∉ visited → nodes !! k = rest !! k) →
  length frontier + weight rest < fuel →
  is_Some (traverse fuel nodes frontier visited expanded).
Proof.
  revert frontier visited expanded rest.
  induction fuel as [|fuel IH]; intros frontier visited expanded rest Hrest Hlt;
    [lia|].
  destruct frontier as [|n frontier]; simpl; [by eexists|].
  destruct (decide (n ∈ visited)) as [Hin|Hnot].
  - apply (IH _ _ _ rest Hrest). simpl in Hlt. lia.
  - destruct (nodes !! n) as [node|] eqn:Hn; [|by eexists].
    apply (IH _ _ _ (delete n rest)).
    + intros k Hk. destruct (decide (k = n)) as [->|Hne]; [set_solver|].
      rewrite lookup_delete_ne by done. apply Hrest. set_solver.
    + rewrite Hrest in Hn by done.
      rewrite (weight_delete rest n node Hn) in Hlt.
      rewrite length_app. simpl in Hlt. lia.
Qed.

Lemma compute_total graph : is_Some (compute graph).
Proof.
  apply (traverse_enough_fuel _ _ _ _ _ (nodes graph)); [done|].
  unfold budget. lia.
Qed.

Lemma invariant_init nodes roots : invariant nodes roots roots ∅ [].
Proof.
  split.
  - auto.
  - set_solver.
  - set_solver.
  - intros n Hn. by apply reachable_root.
  - apply NoDup_nil_2.
  - set_solver.
Qed.

Lemma invariant_skip nodes roots n rest visited expanded :
  invariant nodes roots (n :: rest) visited expanded →
  n ∈ visited →
  invariant nodes roots rest visited expanded.
Proof.
  intros [Hroots Hclosed Hvisited Hfrontier Honce Hexp] Hin. split; try done.
  - intros r Hr. destruct (Hroots r Hr) as [|[->|]%elem_of_cons]; auto.
  - intros k node m Hk Hnode Hm.
    destruct (Hclosed k node m Hk Hnode Hm) as [|[->|]%elem_of_cons]; auto.
  - intros k Hk. apply Hfrontier. by apply list_elem_of_further.
Qed.

Lemma invariant_expand nodes roots n node rest visited expanded :
  invariant nodes roots (n :: rest) visited expanded →
  n ∉ visited →
  nodes !! n = Some node →
  invariant nodes roots (rest ++ reaches node) ({[n]} ∪ visited)
    (expanded ++ [n]).
Proof.
  intros [Hroots Hclosed Hvisited Hfrontier Honce Hexp] Hnot Hnode.
  assert (reachable nodes roots n) as Hn
    by apply Hfrontier, list_elem_of_here.
  split.
  - intros r Hr.
    destruct (Hroots r Hr) as [|[->|]%elem_of_cons]; set_solver.
  - intros k knode m [->%elem_of_singleton|Hk]%elem_of_union Hknode Hm.
    + right. rewrite Hnode in Hknode. injection Hknode as <-. set_solver.
    + destruct (Hclosed k knode m Hk Hknode Hm) as [|[->|]%elem_of_cons];
        set_solver.
  - intros k [->%elem_of_singleton|Hk]%elem_of_union; [|by apply Hvisited].
    split; [done|by eexists].
  - intros k [Hk|Hk]%elem_of_app.
    + apply Hfrontier. by apply list_elem_of_further.
    + by apply (reachable_step nodes roots n node k).
  - apply NoDup_app. split; [done|]. split; [|apply NoDup_singleton].
    intros k Hk ->%list_elem_of_singleton. by apply Hnot, Hexp.
  - intros k. rewrite elem_of_app, list_elem_of_singleton, Hexp. set_solver.
Qed.

Lemma traverse_invariant nodes roots fuel frontier visited expanded o :
  invariant nodes roots frontier visited expanded →
  traverse fuel nodes frontier visited expanded = Some o →
  match o with
  | Reached visited' expanded' => invariant nodes roots [] visited' expanded'
  | DanglingReference => ∃ n, reachable nodes roots n ∧ nodes !! n = None
  end.
Proof.
  revert frontier visited expanded.
  induction fuel as [|fuel IH]; intros frontier visited expanded Hinv; [done|].
  destruct frontier as [|n rest]; simpl.
  - by intros [= <-].
  - destruct (decide (n ∈ visited)) as [Hin|Hnot].
    + apply IH. by eapply invariant_skip.
    + destruct (nodes !! n) as [node|] eqn:Hnode.
      * apply IH. by apply invariant_expand.
      * intros [= <-]. exists n. split; [|done].
        apply (inv_frontier _ _ _ _ _ Hinv), list_elem_of_here.
Qed.

Lemma invariant_final nodes roots visited expanded n :
  invariant nodes roots [] visited expanded →
  n ∈ visited ↔ reachable nodes roots n.
Proof.
  intros [Hroots Hclosed Hvisited _ _ _].
  split; [intros Hn; apply (Hvisited n Hn)|].
  induction 1 as [r Hr|k node m _ IH Hnode Hm].
  - destruct (Hroots r Hr) as [?|Hnil]; [done|].
    by apply elem_of_nil in Hnil.
  - destruct (Hclosed k node m IH Hnode Hm) as [?|Hnil]; [done|].
    by apply elem_of_nil in Hnil.
Qed.

(** What the engine returns, in terms of [reachable]. *)
Lemma compute_Reached graph visited expanded :
  compute graph = Some (Reached visited expanded) →
  invariant (nodes graph) (roots graph) [] visited expanded.
Proof.
  intros H.
  by apply (traverse_invariant _ (roots graph) _ _ _ _ _
              (invariant_init _ _)) in H.
Qed.

Lemma compute_Dangling graph :
  compute graph = Some DanglingReference →
  ∃ n, reachable (nodes graph) (roots graph) n ∧ nodes graph !! n = None.
Proof.
  intros H.
  by apply (traverse_invariant _ (roots graph) _ _ _ _ _
              (invariant_init _ _)) in H.
Qed.

Lemma reachable_ext nodes roots1 roots2 n :
  (∀ r, r ∈ roots1 → r ∈ roots2) →
  reachable nodes roots1 n → reachable nodes roots2 n.
Proof.
  intros Hsub. induction 1 as [r Hr|k node m _ IH Hnode Hm].
  - apply reachable_root. auto.
  - by apply (reachable_step _ _ k node m).
Qed.

(** The set the engine returns depends on the node store and on which
    names are roots, not on the order of the root sequence. *)
Lemma compute_roots_ext graph1 graph2 :
  nodes graph1 = nodes graph2 →
  (∀ r, r ∈ roots graph1 ↔ r ∈ roots graph2) →
  reached_set <$> compute graph1 = reached_set <$> compute graph2.
Proof.
  intros Hnodes Hroots.
  assert (∀ n, reachable (nodes graph1) (roots graph1) n
               ↔ reachable (nodes graph2) (roots graph2) n) as Hreach.
  { intros n. rewrite Hnodes.
    split; apply reachable_ext; intros r; apply Hroots. }
  destruct (compute_total graph1) as [o1 H1].
  destruct (compute_total graph2) as [o2 H2].
  rewrite H1, H2. simpl. f_equal.
  destruct o1 as [s1 order1|], o2 as [s2 order2|]; simpl.
  - apply compute_Reached in H1, H2. f_equal. apply set_eq. intros n.
    by rewrite (invariant_final _ _ _ _ n H1),
               (invariant_final _ _ _ _ n H2).
  - apply compute_Reached in H1.
    apply compute_Dangling in H2 as (n & Hn & Hnone).
    apply Hreach, (invariant_final _ _ _ _ n H1) in Hn.
    apply (inv_visited _ _ _ _ _ H1) in Hn as [_ [node Hnode]].
    rewrite Hnodes in Hnode. congruence.
  - apply compute_Reached in H2.
    apply compute_Dangling in H1 as (n & Hn & Hnone).
    apply Hreach, (invariant_final _ _ _ _ n H2) in Hn.
    apply (inv_visited _ _ _ _ _ H2) in Hn as [_ [node Hnode]].
    rewrite <- Hnodes in Hnode. congruence.
  - done.
Qed.

(** *** Properties of the engine *)

(** The scenario of the specification: the engine returns [e1] and [e2]. *)
Example scenario_reached :
  compute scenario_graph = Some (Reached {["e1"; "e2"]} ["e1"; "e2"]).
Proof. vm_compute. reflexivity. Qed.

(** A root that reaches a name with no node. *)
Example dangling_root_target :
  traverse 3 (<["A" := {| name := "A"; reaches := ["Z"] |}]> ∅) ["A"] ∅ []
  = Some DanglingReference.
Proof. vm_compute. reflexivity. Qed.

(** C1.  The set the engine returns holds every root, and with a node it
    holds every target of that node that names a node of the store. *)
Theorem reachable_set_closed graph visited expanded :
  compute graph = Some (Reached visited expanded) →
  (∀ r, r ∈ roots graph → r ∈ visited)
  ∧ ∀ n node m,
      n ∈ visited → nodes graph !! n = Some node → m ∈ reaches node →
      is_Some (nodes graph !! m) → m ∈ visited.
Proof.
  intros Hinv%compute_Reached. split.
  - intros r Hr. apply (invariant_final _ _ _ _ r Hinv).
    by apply reachable_root.
  - intros n node m Hn Hnode Hm _.
    apply (invariant_final _ _ _ _ m Hinv).
    apply (reachable_step _ _ n node m); [|done..].
    by apply (invariant_final _ _ _ _ n Hinv).
Qed.

Lemma reachable_set_closed_witness :
  (∀ r, r ∈ roots scenario_graph → r ∈ ({["e1"; "e2"]} : gset Name))
  ∧ ∀ n node m,
      n ∈ ({["e1"; "e2"]} : gset Name) →
      nodes scenario_graph !! n = Some node → m ∈ reaches node →
      is_Some (nodes scenario_graph !! m) → m ∈ ({["e1"; "e2"]} : gset Name).
Proof.
  apply (reachable_set_closed scenario_graph {["e1"; "e2"]} ["e1"; "e2"]).
  vm_compute. reflexivity.
Defined.

(** C8.  On every graph the traversal ends within its budget.  When it
    returns a set, the nodes it expanded are the members of the set, none
    expanded twice, and two nodes of the store that reach each other, one
    of them a root, are both members; otherwise a name reachable from a
    root has no node. *)
Theorem traversal_cycle_safe graph :
  ∃ o, compute graph = Some o
    ∧ match o with
      | Reached visited expanded =>
          NoDup expanded
          ∧ (∀ n, n ∈ visited ↔ n ∈ expanded)
          ∧ ∀ a b nodeA nodeB,
              a ∈ roots graph →
              nodes graph !! a = Some nodeA → nodes graph !! b = Some nodeB →
              b ∈ reaches nodeA → a ∈ reaches nodeB →
              a ∈ visited ∧ b ∈ visited
      | DanglingReference =>
          ∃ n, reachable (nodes graph) (roots graph) n
               ∧ nodes graph !! n = None
      end.
Proof.
  destruct (compute_total graph) as [o Ho]. exists o. split; [done|].
  destruct o as [visited expanded|]; [|by apply compute_Dangling].
  apply compute_Reached in Ho as Hinv.
  split; [apply (inv_once _ _ _ _ _ Hinv)|].
  split; [intros n; symmetry; apply (inv_expanded _ _ _ _ _ Hinv)|].
  intros a b nodeA nodeB Ha HnodeA _ Hb _.
  assert (reachable (nodes graph) (roots graph) a) as Hra
    by by apply reachable_root.
  split.
  - by apply (invariant_final _ _ _ _ a Hinv).
  - apply (invariant_final _ _ _ _ b Hinv).
    by apply (reachable_step _ _ a nodeA b).
Qed.

Lemma traversal_cycle_safe_witness :
  compute cycle_graph = Some (Reached {["A"; "B"]} ["A"; "B"])
  ∧ NoDup ["A"; "B"]
  ∧ "A" ∈ ({["A"; "B"]} : gset Name) ∧ "B" ∈ ({["A"; "B"]} : gset Name).
Proof.
  assert (compute cycle_graph = Some (Reached {["A"; "B"]} ["A"; "B"])) as Hrun
    by (vm_compute; reflexivity).
  split; [exact Hrun|].
  destruct (traversal_cycle_safe cycle_graph) as (o & Ho & Hprop).
  rewrite Hrun in Ho. injection Ho as <-.
  destruct Hprop as (Honce & _ & Hcycle). split; [exact Honce|].
  apply (Hcycle "A" "B" {| name := "A"; reaches := ["B"] |}
           {| name := "B"; reaches := ["A"] |}).
  - apply list_elem_of_here.
  - vm_compute. reflexivity.
  - vm_compute. reflexivity.
  - apply list_elem_of_here.
  - apply list_elem_of_here.
Defined.

End EngineFacts.

(** ** Loading, then traversing *)

Module PipelineFacts.

Import Cashew Loader LoaderFacts Engine EngineFacts.

Section WithHelpers.

Variable isArrayNamed : Value -> IString -> returned bool.
Variable getImport : Wasm.Module -> Name -> Name -> returned Name.

Local Abbreviation load := (Loader.load isArrayNamed getImport).

Lemma NoDup_fmap_eq {A B} (f : A → B) (l : list A) x y :
  NoDup (f <$> l) → x ∈ l → y ∈ l → f x = f y → x = y.
Proof.
  induction l as [|a l IH]; simpl; [by intros _ ?%elem_of_nil|].
  intros [Ha Hl]%NoDup_cons [->|Hx]%elem_of_cons [->|Hy]%elem_of_cons Heq.
  - done.
  - exfalso. apply Ha. rewrite Heq. by apply list_elem_of_fmap_2.
  - exfalso. apply Ha. rewrite <- Heq. by apply list_elem_of_fmap_2.
  - by apply IH.
Qed.

Lemma last_named_Permutation n refs1 refs2 :
  refs1 ≡ₚ refs2 → NoDup (node_name <$> refs1) →
  last_named n refs1 = last_named n refs2.
Proof.
  intros Hperm Hnodup.
  destruct (last_named n refs1) as [r1|] eqn:H1,
           (last_named n refs2) as [r2|] eqn:H2; [| | |done].
  - apply last_named_elem in H1 as [Hin1 Hn1], H2 as [Hin2 Hn2].
    f_equal. apply (NoDup_fmap_eq node_name refs1); [done..| |congruence].
    by rewrite Hperm.
  - apply last_named_elem in H1 as [Hin1 Hn1].
    rewrite Hperm in Hin1.
    destruct (last_named_is_Some n refs2 r1 Hin1 Hn1) as [? ?]. congruence.
  - apply last_named_elem in H2 as [Hin2 Hn2].
    rewrite <- Hperm in Hin2.
    destruct (last_named_is_Some n refs1 r2 Hin2 Hn2) as [? ?]. congruence.
Qed.

(** C9, as amended.  When no two records bear the same name, loading a
    permutation of a sequence of records that loads gives a graph with the
    same node store and the same roots up to order, on which the engine
    returns the same set (or fails alike). *)
Theorem reachable_set_order_independent wasm refs1 refs2 graph1 :
  refs1 ≡ₚ refs2 →
  NoDup (node_name <$> refs1) →
  load wasm (Array refs1) = Ok graph1 →
  ∃ graph2, load wasm (Array refs2) = Ok graph2
    ∧ nodes graph2 = nodes graph1
    ∧ roots graph2 ≡ₚ roots graph1
    ∧ reached_set <$> compute graph2 = reached_set <$> compute graph1.
Proof.
  intros Hperm Hnodup [Herr ->]%load_Ok.
  eexists. split.
  { apply load_Ok. split; [|done].
    apply diagnose_all_Ok. intros ref Hin. rewrite <- Hperm in Hin.
    by apply (proj1 (diagnose_all_Ok isArrayNamed getImport wasm refs1)
                Herr). }
  assert (nodes (foldl (apply_node getImport) (new_graph wasm) refs2)
          = nodes (foldl (apply_node getImport) (new_graph wasm) refs1))
    as Hnodes.
  { apply map_eq. intros n. rewrite !nodes_foldl.
    by rewrite (last_named_Permutation n refs1 refs2). }
  assert (roots (foldl (apply_node getImport) (new_graph wasm) refs2)
          ≡ₚ roots (foldl (apply_node getImport) (new_graph wasm) refs1))
    as Hroots.
  { rewrite !roots_foldl. simpl. by rewrite Hperm. }
  split; [done|]. split; [done|].
  apply compute_roots_ext; [done|]. intros r. by rewrite Hroots.
Qed.

End WithHelpers.

Lemma reachable_set_order_independent_witness :
  ∃ graph2, run empty_module (Array [named_name; A_reaches_name]) = Ok graph2
    ∧ nodes graph2
      = nodes (foldl (Loader.apply_node Wasm.getImport)
                 (new_graph empty_module) [A_reaches_name; named_name])
    ∧ roots graph2
      ≡ₚ roots (foldl (Loader.apply_node Wasm.getImport)
                  (new_graph empty_module) [A_reaches_name; named_name])
    ∧ reached_set <$> compute graph2
      = reached_set <$> compute
          (foldl (Loader.apply_node Wasm.getImport) (new_graph empty_module)
             [A_reaches_name; named_name]).
Proof.
  apply (reachable_set_order_independent isArrayOf Wasm.getImport
           empty_module [A_reaches_name; named_name]
           [named_name; A_reaches_name]).
  - apply perm_swap.
  - apply (bool_decide_unpack _). vm_compute. exact I.
  - vm_compute. reflexivity.
Defined.

(** C9, counterexample.  Two records named [A], the first a root reaching
    [name], the second with no target: in one order the engine returns
    [A] alone, in the other [A] and [name]. *)
Lemma record_order_changes_reachable_set :
  [A_reaches_name; A_plain; named_name] ≡ₚ [A_plain; A_reaches_name; named_name]
  ∧ ∃ graph1 graph2,
      run empty_module (Array [A_reaches_name; A_plain; named_name])
        = Ok graph1
      ∧ run empty_module (Array [A_plain; A_reaches_name; named_name])
        = Ok graph2
      ∧ reached_set <$> compute graph1 = Some (Some {["A"]})
      ∧ reached_set <$> compute graph2 = Some (Some {["A"; "name"]})
      ∧ reached_set <$> compute graph1 ≠ reached_set <$> compute graph2.
Proof.
  split; [apply perm_swap|].
  eexists _, _. split; [vm_compute; reflexivity|].
  split; [vm_compute; reflexivity|].
  assert (∀ x y : option (option (gset Name)),
            x = Some (Some {["A"]}) → y = Some (Some {["A"; "name"]}) →
            x = Some (Some {["A"]}) ∧ y = Some (Some {["A"; "name"]}) ∧ x ≠ y)
    as Hne.
  { intros x y -> ->. split; [done|]. split; [done|].
    intros H.
    assert (({["A"]} : gset Name) = {["A"; "name"]}) as Hsets by congruence.
    assert ("name" ∈ ({["A"]} : gset Name)) as Hin
      by (rewrite Hsets; set_solver).
    set_solver. }
  apply Hne; vm_compute; reflexivity.
Qed.

End PipelineFacts.

(** ** The loop, further *)

Module LoopFacts.

Import Cashew Loader LoaderFacts Samples.

Section WithHelpers.

Variable isArrayNamed : Value -> IString -> returned bool.
Variable getImport : Wasm.Module -> Name -> Name -> returned Name.

Local Abbreviation load_node := (Loader.load_node isArrayNamed getImport).
Local Abbreviation load_nodes := (Loader.load_nodes isArrayNamed getImport).
Local Abbreviation load := (Loader.load isArrayNamed getImport).
Local Abbreviation diagnose := (Loader.diagnose isArrayNamed getImport).
Local Abbreviation diagnose_all :=
  (Loader.diagnose_all isArrayNamed getImport).
Local Abbreviation import_lookup := (Loader.import_lookup getImport).
Local Abbreviation apply_node := (Loader.apply_node getImport).
Local Abbreviation last_import := (Loader.last_import getImport).

(** *** Shared lemmas *)

Lemma load_nodes_app graph refs1 refs2 :
  load_nodes graph (refs1 ++ refs2) =
  bind (load_nodes graph refs1) (λ graph', load_nodes graph' refs2).
Proof.
  revert graph. induction refs1 as [|ref refs1 IH]; intros graph; simpl;
    [done|].
  destruct (load_node graph ref) as [graph'| |]; simpl; [apply IH|done..].
Qed.

Lemma load_single_Fatal wasm ref e :
  load wasm (Array [ref]) = Fatal e ↔ diagnose wasm ref = Fatal e.
Proof.
  rewrite load_spec. simpl.
  destruct (diagnose wasm ref) as [[]| |]; simpl; split; congruence.
Qed.

(** What a record that passes every test of an iteration looks like. *)
Lemma diagnose_Ok_tests wasm ref :
  diagnose wasm ref = Ok tt →
  isObject ref = true ∧ has ref NAME = true
  ∧ isString (get ref NAME) = true
  ∧ (has ref REACHES = true →
     isArrayNamed (get ref REACHES) NAME = Returns true
     ∧ isArray (get ref REACHES) = true
     ∧ forallb isString (items (get ref REACHES)) = true)
  ∧ (has ref ROOT = true → is_true_bool (get ref ROOT) = true)
  ∧ (has ref EXPORT = true → isString (get ref EXPORT) = true)
  ∧ (has ref IMPORT = true →
     is_two_strings (get ref IMPORT) = true
     ∧ is_ok (import_lookup wasm ref) = true).
Proof.
  unfold Loader.diagnose.
  destruct (isObject ref); simpl; [|done].
  destruct (has ref NAME); simpl; [|done].
  destruct (isString (get ref NAME)); simpl; [|done].
  destruct (has ref REACHES); simpl;
    [ destruct (isArrayNamed _ _) as [[]|]; simpl; [|done..];
      destruct (isArray (get ref REACHES)); simpl; [|done];
      destruct (forallb _ _); simpl; [|done] | ];
    (destruct (has ref ROOT); simpl;
     [ destruct (is_true_bool _); simpl; [|done] | ]);
    (destruct (has ref EXPORT); simpl;
     [ destruct (isString (get ref EXPORT)); simpl; [|done] | ]);
    (destruct (has ref IMPORT); simpl;
     [ destruct (is_two_strings _); simpl; [|done];
       destruct (import_lookup wasm ref); simpl; [|done..] | ]);
    intros _; repeat split; done.
Qed.

(** No test of an iteration gives the message of the top level. *)
Lemma diagnose_not_MustBeArray wasm ref :
  diagnose wasm ref ≠ Fatal Fatal.MustBeArray.
Proof.
  unfold Loader.diagnose, Loader.import_lookup.
  destruct (isObject ref); simpl; [|done].
  destruct (has ref NAME); simpl; [|done].
  destruct (isString (get ref NAME)); simpl; [|done].
  destruct (has ref REACHES); simpl;
    [ destruct (isArrayNamed _ _) as [[]|]; simpl; [|done..];
      destruct (isArray (get ref REACHES)); simpl; [|done];
      destruct (forallb _ _); simpl; [|done] | ];
    (destruct (has ref ROOT); simpl;
     [ destruct (is_true_bool _); simpl; [|done] | ]);
    (destruct (has ref EXPORT); simpl;
     [ destruct (isString (get ref EXPORT)); simpl; [|done] | ]);
    (destruct (has ref IMPORT); simpl;
     [ destruct (is_two_strings _); simpl; [|done];
       destruct (getImport _ _ _); simpl; done | ]);
    done.
Qed.

Lemma diagnose_all_not_MustBeArray wasm refs :
  diagnose_all wasm refs ≠ Fatal Fatal.MustBeArray.
Proof.
  induction refs as [|ref refs IH]; simpl; [done|].
  pose proof (diagnose_not_MustBeArray wasm ref) as Href.
  destruct (diagnose wasm ref) as [[]| |]; simpl; done.
Qed.




Lemma forallb_isString_strings elems :
  forallb isString elems = true → ∃ targets, elems = String <$> targets.
Proof.
  induction elems as [|v elems IH]; simpl; [by exists []|].
  destruct v as [|str| | | |]; simpl; try done.
  intros [targets ->]%IH. by exists (str :: targets).
Qed.

Lemma forallb_isString_fmap targets :
  forallb isString (String <$> targets) = true.
Proof. by induction targets. Qed.

Lemma is_true_bool_shape root : is_true_bool root = true ↔ root = Bool true.
Proof.
  split; [|by intros ->].
  unfold is_true_bool. destruct root as [| | | |[]|]; simpl; done.
Qed.

Lemma dom_nodes_foldl graph refs :
  dom (nodes (foldl apply_node graph refs)) =
  dom (nodes graph) ∪ list_to_set (node_name <$> refs).
Proof.
  clear isArrayNamed. revert graph.
  induction refs as [|ref refs IH]; intros graph; simpl.
  - set_solver.
  - rewrite IH. simpl. rewrite dom_insert_L. set_solver.
Qed.

Lemma dom_exports_foldl graph refs :
  dom (exportToDCENode graph)
  ⊆ dom (exportToDCENode (foldl apply_node graph refs)).
Proof.
  clear isArrayNamed. revert graph.
  induction refs as [|ref refs IH]; intros graph; simpl; [done|].
  etrans; [|apply IH]. simpl.
  destruct (has ref EXPORT); [|done]. rewrite dom_insert_L. set_solver.
Qed.

Lemma dom_imports_foldl graph refs :
  dom (importToDCENode graph)
  ⊆ dom (importToDCENode (foldl apply_node graph refs)).
Proof.
  clear isArrayNamed. revert graph.
  induction refs as [|ref refs IH]; intros graph; simpl; [done|].
  etrans; [|apply IH]. simpl.
  destruct (has ref IMPORT); [|done].
  destruct (import_lookup (wasm graph) ref); [|done..].
  rewrite dom_insert_L. set_solver.
Qed.

Lemma size_list_to_set_le (names : list Name) :
  base.size (list_to_set names : gset Name) ≤ length names.
Proof.
  clear isArrayNamed getImport.
  induction names as [|x names IH].
  - rewrite list_to_set_nil, size_empty. simpl. lia.
  - rewrite list_to_set_cons, size_union_alt, size_singleton.
    assert (base.size (list_to_set names ∖ {[x]} : gset Name)
            ≤ base.size (list_to_set names : gset Name))
      by (apply subseteq_size; set_solver).
    simpl. lia.
Qed.

Lemma last_export_elem e refs ref :
  last_export e refs = Some ref →
  ref ∈ refs ∧ has ref EXPORT = true ∧ getIString (get ref EXPORT) = e.
Proof.
  unfold last_export. intros H%last_Some_elem_of.
  apply list_elem_of_filter in H as [[Hh He] Hin]. done.
Qed.

Lemma last_import_elem wasm k refs ref :
  last_import wasm k refs = Some ref →
  ref ∈ refs ∧ has ref IMPORT = true ∧ import_lookup wasm ref = Ok k.
Proof.
  unfold Loader.last_import. intros H%last_Some_elem_of.
  apply list_elem_of_filter in H as [[Hh He] Hin]. done.
Qed.


(** *** How the loop composes and where it stops *)

(** Loading a sequence followed by another is loading the first and then
    running the loop over the second from the graph reached. *)
Theorem load_app wasm refs1 refs2 :
  load wasm (Array (refs1 ++ refs2)) =
  bind (load wasm (Array refs1)) (λ graph, load_nodes graph refs2).
Proof. unfold Loader.load. simpl. apply load_nodes_app. Qed.

(** The first record that fails a test decides the outcome: after records
    that load, a record that aborts on its own aborts the load with the
    same message, whatever follows it. *)
Theorem first_malformed_record_decides wasm refs ref rest e :
  is_ok (load wasm (Array refs)) = true →
  load wasm (Array [ref]) = Fatal e →
  load wasm (Array (refs ++ ref :: rest)) = Fatal e.
Proof.
  intros Hok%load_ok_diagnose_all Hbad%load_single_Fatal.
  rewrite load_spec. simpl. rewrite diagnose_all_app, Hok. simpl.
  by rewrite Hbad.
Qed.

(** Within a record whose name is a string the tests are made in a fixed
    order and the first that fails gives the message: object, name, the
    array test on [reaches], the items of [reaches], [root], [export],
    [import].  The array test fails when it returns false; it is passed
    by a record without [reaches] and by one on whose [reaches], an
    array, it returns true.  A record that fails none is loaded when its
    [import], if it has one, resolves. *)
Theorem load_node_message_order graph ref :
  (isObject ref = false →
   load_node graph ref = Fatal Fatal.NodeMustBeObject)
  ∧ (isObject ref = true → has ref NAME = false →
     load_node graph ref = Fatal Fatal.NodeMustHaveName)
  ∧ (isObject ref = true → has ref NAME = true →
     isString (get ref NAME) = true →
     (has ref REACHES = true →
      isArrayNamed (get ref REACHES) NAME = Returns false →
      load_node graph ref = Fatal Fatal.ReachesMustBeArray)
     ∧ ((has ref REACHES = true →
         isArrayNamed (get ref REACHES) NAME = Returns true
         ∧ isArray (get ref REACHES) = true) →
        (bad_reaches_items ref = true →
         load_node graph ref = Fatal Fatal.ReachesItemsMustBeStrings)
        ∧ (bad_reaches_items ref = false →
           (bad_root ref = true →
            load_node graph ref = Fatal Fatal.RootMustBeTrue)
           ∧ (bad_root ref = false →
              (bad_export ref = true →
               load_node graph ref = Fatal Fatal.ExportMustBeString)
              ∧ (bad_export ref = false →
                 (bad_import ref = true →
                  load_node graph ref = Fatal Fatal.ImportMustBeTwoStrings)
                 ∧ (bad_import ref = false →
                    (has ref IMPORT = true →
                     is_ok (import_lookup (wasm graph) ref) = true) →
                    load_node graph ref = Ok (apply_node graph ref))))))).
Proof.
  rewrite load_node_spec. unfold Loader.diagnose.
  split; [by intros ->|].
  split; [by intros -> ->|].
  intros -> -> ->. simpl.
  split; [by intros -> ->|].
  unfold bad_reaches_items, bad_root, bad_export, bad_import.
  destruct (has ref REACHES); simpl;
    [ intros [-> ->]; [done|]; simpl;
      destruct (forallb isString _); simpl; [|by repeat split]
    | intros _ ];
    (destruct (has ref ROOT); simpl;
     [ destruct (is_true_bool _); simpl; [|by repeat split] | ]);
    (destruct (has ref EXPORT); simpl;
     [ destruct (isString (get ref EXPORT)); simpl; [|by repeat split] | ]);
    (destruct (has ref IMPORT); simpl;
     [ destruct (is_two_strings _); simpl; [|by repeat split] | ]);
    repeat split; try done;
    intros _ Hok; specialize (Hok eq_refl);
    by destruct (import_lookup (wasm graph) ref).
Qed.

(** The inner loop appends the strings of [reaches] to the node's targets
    in their order, repeated ones included, and aborts when any item,
    wherever it stands, is not a string. *)
Theorem load_reaches_appends node :
  (∀ targets,
     load_reaches node (String <$> targets)
     = Ok {| name := name node; reaches := reaches node ++ targets |})
  ∧ (∀ reachesItems v,
       v ∈ reachesItems → isString v = false →
       load_reaches node reachesItems
       = Fatal Fatal.ReachesItemsMustBeStrings).
Proof.
  split.
  - intros targets. rewrite load_reaches_spec, forallb_isString_fmap.
    by rewrite <- list_fmap_compose, list_fmap_id.
  - intros reachesItems v Hin Hv. rewrite load_reaches_spec.
    destruct (forallb isString reachesItems) eqn:Hall; [|done].
    rewrite forallb_forall in Hall.
    apply list_elem_of_In, Hall in Hin. congruence.
Qed.

(** *** What an accepted record looks like *)

(** A record the loop accepts is an object with a [name]; a [reaches]
    it carries passes the array test and holds strings only, a [root] is
    the boolean [true], an [export] is a string, an [import] is an array
    of exactly two strings. *)
Theorem load_node_accepts_only_well_shaped graph ref graph' :
  load_node graph ref = Ok graph' →
  (∃ obj, ref = Object obj ∧ is_Some (obj !! NAME))
  ∧ (has ref REACHES = true →
     isArrayNamed (get ref REACHES) NAME = Returns true
     ∧ ∃ targets, items (get ref REACHES) = String <$> targets)
  ∧ (has ref ROOT = true → get ref ROOT = Bool true)
  ∧ (has ref EXPORT = true → ∃ e, get ref EXPORT = String e)
  ∧ (has ref IMPORT = true →
     ∃ m b, get ref IMPORT = Array [String m; String b]).
Proof.
  rewrite load_node_spec.
  destruct (diagnose (wasm graph) ref) as [[]| |] eqn:Hd; [|done..].
  intros _.
  apply diagnose_Ok_tests in Hd
    as (Hobj & Hname & _ & Hreaches & Hroot & Hexp & Himp).
  split; [|split; [|split; [|split]]].
  - destruct ref as [| | | | |obj]; try done. exists obj. split; [done|].
    simpl in Hname. by apply bool_decide_eq_true in Hname.
  - intros Hhas. destruct (Hreaches Hhas) as (Htest & _ & Hitems).
    split; [done|]. by apply forallb_isString_strings.
  - intros Hhas. by apply is_true_bool_shape, Hroot.
  - intros Hhas. specialize (Hexp Hhas).
    destruct (get ref EXPORT) as [|e| | | |]; try done. by exists e.
  - intros Hhas. by apply is_two_strings_shape, Himp.
Qed.

(** *** The graph after the loop *)

(** Every node of the store is filed under its own name. *)
Theorem load_nodes_keyed_by_name wasm json graph n node :
  load wasm json = Ok graph →
  nodes graph !! n = Some node →
  name node = n.
Proof.
  intros (_ & _ & ->)%load_Ok_json. rewrite nodes_foldl. simpl.
  rewrite lookup_empty.
  destruct (last_named n (items json)) as [ref|] eqn:Hlast; [|done].
  intros [= <-]. simpl.
  by apply last_named_elem in Hlast as [_ ?].
Qed.

(** Every binding of the two linkage tables points to a node of the
    store. *)
Theorem load_linkage_targets_are_nodes wasm json graph :
  load wasm json = Ok graph →
  (∀ e n, exportToDCENode graph !! e = Some n → is_Some (nodes graph !! n))
  ∧ (∀ k n, importToDCENode graph !! k = Some n →
       is_Some (nodes graph !! n)).
Proof.
  intros (_ & _ & ->)%load_Ok_json. split.
  - intros e n. rewrite exports_foldl, nodes_foldl. simpl.
    rewrite lookup_empty.
    destruct (last_export e (items json)) as [ref|] eqn:Hlast; [|done].
    intros [= <-]. apply last_export_elem in Hlast as (Hin & _ & _).
    by destruct (last_named_is_Some (node_name ref) (items json) ref Hin
                   eq_refl) as [ref' ->].
  - intros k n. rewrite imports_foldl, nodes_foldl. simpl.
    rewrite lookup_empty.
    destruct (last_import wasm k (items json)) as [ref|] eqn:Hlast; [|done].
    intros [= <-]. apply last_import_elem in Hlast as (Hin & _ & _).
    by destruct (last_named_is_Some (node_name ref) (items json) ref Hin
                   eq_refl) as [ref' ->].
Qed.

(** The names of the store are the names of the records; the store has at
    most as many nodes as there are records, and as many when no two
    records bear the same name. *)
Theorem load_store_size wasm refs graph :
  load wasm (Array refs) = Ok graph →
  dom (nodes graph) = list_to_set (node_name <$> refs)
  ∧ base.size (nodes graph) ≤ length refs
  ∧ (NoDup (node_name <$> refs) → base.size (nodes graph) = length refs).
Proof.
  intros [_ ->]%load_Ok.
  assert (dom (nodes (foldl apply_node (new_graph wasm) refs))
          = list_to_set (node_name <$> refs)) as Hdom.
  { rewrite dom_nodes_foldl. simpl. rewrite dom_empty_L. set_solver. }
  split; [done|]. rewrite <- size_dom, Hdom. split.
  - rewrite <- (length_fmap node_name refs). apply size_list_to_set_le.
  - intros Hnodup. rewrite size_list_to_set by done. apply length_fmap.
Qed.

(** Loading more records never takes anything away: the roots of the
    shorter load are a prefix of the roots of the longer one, and its node
    names and the keys of its two linkage tables are kept. *)
Theorem load_extension_monotone wasm refs more graph' :
  load wasm (Array (refs ++ more)) = Ok graph' →
  ∃ graph, load wasm (Array refs) = Ok graph
    ∧ roots graph `prefix_of` roots graph'
    ∧ dom (nodes graph) ⊆ dom (nodes graph')
    ∧ dom (exportToDCENode graph) ⊆ dom (exportToDCENode graph')
    ∧ dom (importToDCENode graph) ⊆ dom (importToDCENode graph').
Proof.
  intros [Herr ->]%load_Ok. rewrite diagnose_all_app in Herr.
  destruct (diagnose_all wasm refs) as [[]| |] eqn:Hrefs; [|done..].
  eexists. split; [by apply load_Ok|].
  rewrite foldl_app.
  split; [|split; [|split]].
  - rewrite (roots_foldl _ _ more). by apply prefix_app_r.
  - rewrite (dom_nodes_foldl _ more). set_solver.
  - apply dom_exports_foldl.
  - apply dom_imports_foldl.
Qed.

(** When no two records bear the same name, no root is registered twice. *)
Theorem load_distinct_names_distinct_roots wasm refs graph :
  load wasm (Array refs) = Ok graph →
  NoDup (node_name <$> refs) →
  NoDup (roots graph).
Proof.
  intros [_ ->]%load_Ok Hnodup. rewrite roots_foldl. simpl.
  apply (sublist_NoDup _ (node_name <$> refs)); [done|].
  apply fmap_sublist, sublist_filter.
Qed.

(** Loading a record a second time right after the first changes neither
    the node store nor the linkage tables; the name is pushed on the roots
    once more when the record carries [root]. *)
Theorem load_repeated_record wasm refs ref graph1 :
  load wasm (Array (refs ++ [ref])) = Ok graph1 →
  ∃ graph2, load wasm (Array (refs ++ [ref; ref])) = Ok graph2
    ∧ nodes graph2 = nodes graph1
    ∧ exportToDCENode graph2 = exportToDCENode graph1
    ∧ importToDCENode graph2 = importToDCENode graph1
    ∧ roots graph2
      = roots graph1 ++ (if has ref ROOT then [node_name ref] else []).
Proof.
  intros [Herr ->]%load_Ok.
  rewrite diagnose_all_app in Herr.
  destruct (diagnose_all wasm refs) as [[]| |] eqn:Hrefs; [|done..].
  simpl in Herr.
  destruct (diagnose wasm ref) as [[]| |] eqn:Hd; [|done..].
  eexists. split.
  { apply load_Ok. split; [|done].
    rewrite diagnose_all_app, Hrefs. simpl. by rewrite Hd. }
  rewrite !foldl_app. simpl.
  split; [by rewrite insert_insert_eq|].
  split; [by destruct (has ref EXPORT); rewrite ?insert_insert_eq|].
  split; [|done].
  destruct (has ref IMPORT); [|done].
  destruct (import_lookup _ ref); by rewrite ?insert_insert_eq.
Qed.


(** *** Edges of the input *)

(** The message for the top level is given for an input that is not an
    array and for no other; the empty array loads the empty graph. *)
Theorem load_top_level wasm json :
  (load wasm json = Fatal Fatal.MustBeArray ↔ isArray json = false)
  ∧ load wasm (Array []) = Ok (new_graph wasm).
Proof.
  split; [|done]. rewrite load_spec.
  destruct (isArray json); [|done]. split; [|done].
  pose proof (diagnose_all_not_MustBeArray wasm (items json)) as Hnot.
  destruct (diagnose_all wasm (items json)) as [[]| |]; simpl; [done| |done].
  intros [= ->]. done.
Qed.

(** When the array test returns false of whatever is not an array, a
    [reaches] that is not an array aborts the load of its record with the
    message for the array test, provided the record is an object with a
    name that is a string. *)
Theorem non_array_reaches_is_fatal graph ref :
  (∀ v, isArray v = false → isArrayNamed v NAME = Returns false) →
  isObject ref = true → has ref NAME = true →
  isString (get ref NAME) = true →
  has ref REACHES = true →
  isArray (get ref REACHES) = false →
  load_node graph ref = Fatal Fatal.ReachesMustBeArray.
Proof.
  intros Htest Hobj Hname Hstr Hhas Harr.
  rewrite load_node_spec. unfold Loader.diagnose.
  rewrite Hobj, Hname, Hstr, Hhas. simpl.
  by rewrite (Htest _ Harr).
Qed.

(** When the array test holds only of an array whose first element is
    the string it is given, every node of the store has either no target
    or [name] as its first target. *)
Theorem headed_test_forces_first_target wasm json graph n node :
  (∀ v, isArrayNamed v NAME = Returns true →
     ∃ rest, items v = String NAME :: rest) →
  load wasm json = Ok graph →
  nodes graph !! n = Some node →
  reaches node = [] ∨ ∃ rest, reaches node = NAME :: rest.
Proof.
  intros Htest (_ & Herr & ->)%load_Ok_json. rewrite nodes_foldl. simpl.
  rewrite lookup_empty.
  destruct (last_named n (items json)) as [ref|] eqn:Hlast; [|done].
  intros [= <-]. simpl. unfold node_reaches.
  destruct (has ref REACHES) eqn:Hhas; [|by left]. right.
  apply last_named_elem in Hlast as [Hin _].
  pose proof (proj1 (diagnose_all_Ok _ _ _ _) Herr ref Hin) as Hd.
  apply diagnose_Ok_tests in Hd as (_ & _ & _ & Hreaches & _).
  destruct (Hreaches Hhas) as ([rest ->]%Htest & _).
  by exists (getIString <$> rest).
Qed.

End WithHelpers.

(** *** Concrete runs *)

Lemma isArrayOf_not_array v what :
  isArray v = false → isArrayOf v what = Returns false.
Proof. by destruct v. Qed.

Lemma isArrayOf_headed v what :
  isArrayOf v what = Returns true → ∃ rest, items v = String what :: rest.
Proof.
  destruct v as [| | |elems| |]; try done.
  destruct elems as [|x rest]; [done|]. simpl.
  destruct x as [|str| | | |]; try done.
  intros [= Heq]. apply bool_decide_eq_true in Heq as ->. by exists rest.
Qed.

(** With cashew's overload as the array test, a [reaches] written as in
    the tool's help text, whose first element is not [name], aborts the
    load. *)
Example help_text_reaches_rejected :
  run empty_module
    (Array [object [(NAME, String "entity2");
                    (REACHES, strings ["entity1"; "entity4"])]])
  = Fatal Fatal.ReachesMustBeArray.
Proof. vm_compute. reflexivity. Qed.

Lemma first_malformed_record_decides_witness :
  run empty_module (Array ([root_A] ++ a_reaches_true :: [String "junk"]))
  = Fatal Fatal.ReachesMustBeArray.
Proof.
  apply (first_malformed_record_decides isArrayOf Wasm.getImport
           empty_module [root_A] a_reaches_true [String "junk"]).
  - vm_compute. reflexivity.
  - vm_compute. reflexivity.
Defined.

Lemma load_node_message_order_witness :
  Loader.load_node isArrayOf Wasm.getImport (new_graph empty_module)
    bad_root_and_export
  = Fatal Fatal.RootMustBeTrue.
Proof.
  apply (load_node_message_order isArrayOf Wasm.getImport
           (new_graph empty_module) bad_root_and_export);
    first [ vm_compute; reflexivity
          | intros Hhas; vm_compute in Hhas; discriminate Hhas ].
Defined.

Lemma load_node_accepts_only_well_shaped_witness :
  (∃ obj, full_record = Object obj ∧ is_Some (obj !! NAME))
  ∧ (has full_record REACHES = true →
     isArrayOf (get full_record REACHES) NAME = Returns true
     ∧ ∃ targets, items (get full_record REACHES) = String <$> targets)
  ∧ (has full_record ROOT = true → get full_record ROOT = Bool true)
  ∧ (has full_record EXPORT = true →
     ∃ e, get full_record EXPORT = String e)
  ∧ (has full_record IMPORT = true →
     ∃ m b, get full_record IMPORT = Array [String m; String b]).
Proof.
  apply (load_node_accepts_only_well_shaped isArrayOf Wasm.getImport
           (new_graph one_import_module) full_record
           (Loader.apply_node Wasm.getImport (new_graph one_import_module)
              full_record)).
  vm_compute. reflexivity.
Defined.

Lemma load_nodes_keyed_by_name_witness :
  name {| name := "A"; reaches := [] |} = "A".
Proof.
  apply (load_nodes_keyed_by_name isArrayOf Wasm.getImport empty_module
           (Array [A_reaches_name; A_plain])
           (foldl (Loader.apply_node Wasm.getImport)
              (new_graph empty_module) [A_reaches_name; A_plain])
           "A" {| name := "A"; reaches := [] |}).
  - vm_compute. reflexivity.
  - vm_compute. reflexivity.
Defined.

Lemma load_linkage_targets_are_nodes_witness :
  (∀ e n,
     exportToDCENode
       (Loader.apply_node Wasm.getImport (new_graph one_import_module)
          full_record) !! e = Some n →
     is_Some (nodes (Loader.apply_node Wasm.getImport
                       (new_graph one_import_module) full_record) !! n))
  ∧ (∀ k n,
       importToDCENode
         (Loader.apply_node Wasm.getImport (new_graph one_import_module)
            full_record) !! k = Some n →
       is_Some (nodes (Loader.apply_node Wasm.getImport
                         (new_graph one_import_module) full_record) !! n)).
Proof.
  apply (load_linkage_targets_are_nodes isArrayOf Wasm.getImport
           one_import_module (Array [full_record])).
  vm_compute. reflexivity.
Defined.

Lemma load_store_size_witness :
  dom (nodes (foldl (Loader.apply_node Wasm.getImport)
                (new_graph empty_module) [A_reaches_name; A_plain]))
  = list_to_set (node_name <$> [A_reaches_name; A_plain])
  ∧ base.size (nodes (foldl (Loader.apply_node Wasm.getImport)
                        (new_graph empty_module) [A_reaches_name; A_plain]))
    ≤ length [A_reaches_name; A_plain]
  ∧ (NoDup (node_name <$> [A_reaches_name; A_plain]) →
     base.size (nodes (foldl (Loader.apply_node Wasm.getImport)
                         (new_graph empty_module) [A_reaches_name; A_plain]))
     = length [A_reaches_name; A_plain]).
Proof.
  apply (load_store_size isArrayOf Wasm.getImport empty_module
           [A_reaches_name; A_plain]).
  vm_compute. reflexivity.
Defined.

Lemma load_extension_monotone_witness :
  ∃ graph, run empty_module (Array [root_A]) = Ok graph
    ∧ roots graph
      `prefix_of` roots (foldl (Loader.apply_node Wasm.getImport)
                           (new_graph empty_module) [root_A; B_reaches_Z])
    ∧ dom (nodes graph)
      ⊆ dom (nodes (foldl (Loader.apply_node Wasm.getImport)
                      (new_graph empty_module) [root_A; B_reaches_Z]))
    ∧ dom (exportToDCENode graph)
      ⊆ dom (exportToDCENode
               (foldl (Loader.apply_node Wasm.getImport)
                  (new_graph empty_module) [root_A; B_reaches_Z]))
    ∧ dom (importToDCENode graph)
      ⊆ dom (importToDCENode
               (foldl (Loader.apply_node Wasm.getImport)
                  (new_graph empty_module) [root_A; B_reaches_Z])).
Proof.
  apply (load_extension_monotone isArrayOf Wasm.getImport empty_module
           [root_A] [B_reaches_Z]).
  vm_compute. reflexivity.
Defined.

Lemma load_distinct_names_distinct_roots_witness :
  NoDup (roots (foldl (Loader.apply_node Wasm.getImport)
                  (new_graph empty_module) [A_reaches_name; named_name])).
Proof.
  apply (load_distinct_names_distinct_roots isArrayOf Wasm.getImport
           empty_module [A_reaches_name; named_name]).
  - vm_compute. reflexivity.
  - apply (bool_decide_unpack _). vm_compute. exact I.
Defined.

Lemma load_repeated_record_witness :
  ∃ graph2,
    run one_import_module (Array ([] ++ [full_record; full_record]))
      = Ok graph2
    ∧ nodes graph2
      = nodes (Loader.apply_node Wasm.getImport
                 (new_graph one_import_module) full_record)
    ∧ exportToDCENode graph2
      = exportToDCENode (Loader.apply_node Wasm.getImport
                           (new_graph one_import_module) full_record)
    ∧ importToDCENode graph2
      = importToDCENode (Loader.apply_node Wasm.getImport
                           (new_graph one_import_module) full_record)
    ∧ roots graph2
      = roots (Loader.apply_node Wasm.getImport
                 (new_graph one_import_module) full_record)
        ++ (if has full_record ROOT then [node_name full_record] else []).
Proof.
  apply (load_repeated_record isArrayOf Wasm.getImport one_import_module
           [] full_record).
  vm_compute. reflexivity.
Defined.

Lemma non_array_reaches_is_fatal_witness :
  Loader.load_node isArrayOf Wasm.getImport (new_graph empty_module)
    a_reaches_true
  = Fatal Fatal.ReachesMustBeArray.
Proof.
  apply (non_array_reaches_is_fatal isArrayOf Wasm.getImport
           (new_graph empty_module) a_reaches_true).
  - intros v. apply isArrayOf_not_array.
  - reflexivity.
  - vm_compute. reflexivity.
  - vm_compute. reflexivity.
  - vm_compute. reflexivity.
  - vm_compute. reflexivity.
Defined.

Lemma headed_test_forces_first_target_witness :
  reaches {| name := "A"; reaches := ["name"] |} = []
  ∨ ∃ rest, reaches {| name := "A"; reaches := ["name"] |} = NAME :: rest.
Proof.
  apply (headed_test_forces_first_target isArrayOf Wasm.getImport
           empty_module (Array [A_reaches_name; named_name])
           (foldl (Loader.apply_node Wasm.getImport)
              (new_graph empty_module) [A_reaches_name; named_name])
           "A" {| name := "A"; reaches := ["name"] |}).
  - intros v. apply isArrayOf_headed.
  - vm_compute. reflexivity.
  - vm_compute. reflexivity.
Defined.

End LoopFacts.
